(** * FileTransfer: a shallow embedding of [server.py] and [client.py]

    The development models the directory-backed TCP file server
    ([FileTransferServer] in [src/server.py]) and its command-line client
    ([src/client.py]) as pure functions over an explicit world: the served
    file tree, the scripted behaviour of the peer on the connection, the
    clock, the shared connection counter and the trace of observable actions.

    Conventions.
    - A Python [bytes] value is a [list byte]; a Python [str] is a [string]
      holding its UTF-8 encoding, so [encode] is the identity on the
      underlying bytes and [decode] is a validity check.  Every string
      operation the programs perform ([startswith], slicing off an ASCII
      prefix, splitting on an ASCII separator) acts on whole code points in
      that encoding.
    - [os.path] is the POSIX flavour ([posixpath]).
    - Time stamps are rationals; float rounding is not modelled. *)

From Stdlib Require Import ZArith NArith List Bool Lia.
From Stdlib.Strings Require Import String Ascii Byte.
From Stdlib Require Import QArith Qround Qminmax DecimalString.
From Stdlib Require DecimalPos.
Import ListNotations.

Local Close Scope Q_scope.
Local Open Scope Z_scope.
Local Open Scope string_scope.

(* ================================================================== *)
(** ** Python values: [bytes], [str] and the built-ins the code uses *)
(* ================================================================== *)

Module Py.

Definition bytes := list byte.
Definition str := string.

(** [str.encode()] (UTF-8): the identity on the encoded form. *)
Definition encode (s : str) : bytes := list_byte_of_string s.

(** [b"..."] literals. *)
Definition b (s : string) : bytes := list_byte_of_string s.

Definition byte_val (x : byte) : N := Byte.to_N x.

Definition in_range (lo hi : N) (x : byte) : bool :=
  (lo <=? byte_val x)%N && (byte_val x <=? hi)%N.

Definition cont (x : byte) : bool := in_range 128 191 x.

(** Well-formed UTF-8 as the strict decoder accepts it: shortest forms only,
    no surrogates, nothing above U+10FFFF. *)
Fixpoint utf8_valid (l : bytes) : bool :=
  match l with
  | [] => true
  | x0 :: r0 =>
      if in_range 0 127 x0 then utf8_valid r0
      else match r0 with
      | [] => false
      | x1 :: r1 =>
          if in_range 194 223 x0 then cont x1 && utf8_valid r1
          else match r1 with
          | [] => false
          | x2 :: r2 =>
              if in_range 224 239 x0 then
                (if in_range 224 224 x0 then in_range 160 191 x1
                 else if in_range 237 237 x0 then in_range 128 159 x1
                 else cont x1)
                && cont x2 && utf8_valid r2
              else match r2 with
              | [] => false
              | x3 :: r3 =>
                  if in_range 240 244 x0 then
                    (if in_range 240 240 x0 then in_range 144 191 x1
                     else if in_range 244 244 x0 then in_range 128 143 x1
                     else cont x1)
                    && cont x2 && cont x3 && utf8_valid r3
                  else false
              end
          end
      end
  end.

(** [bytes.decode()]: [None] stands for [UnicodeDecodeError]. *)
Definition decode (l : bytes) : option str :=
  if utf8_valid l then Some (string_of_list_byte l) else None.

Fixpoint bytes_eqb (x y : bytes) : bool :=
  match x, y with
  | [], [] => true
  | a :: x', c :: y' => Byte.eqb a c && bytes_eqb x' y'
  | _, _ => false
  end.

(** [s.startswith(p)]. *)
Fixpoint startswith (s p : str) {struct p} : bool :=
  match p, s with
  | EmptyString, _ => true
  | String _ _, EmptyString => false
  | String c p', String a s' => Ascii.eqb a c && startswith s' p'
  end.

(** [s[n:]]. *)
Fixpoint drop (n : nat) (s : str) : str :=
  match n, s with
  | O, _ => s
  | S n', String _ r => drop n' r
  | S _, EmptyString => EmptyString
  end.

Fixpoint last_char (s : str) : option ascii :=
  match s with
  | EmptyString => None
  | String a EmptyString => Some a
  | String _ r => last_char r
  end.

(** [s.endswith(c)] for a one-character [c]. *)
Definition endswith (s : str) (c : ascii) : bool :=
  match last_char s with
  | Some a => Ascii.eqb a c
  | None => false
  end.

(** [s.split(c)] for a one-character separator: never the empty list. *)
Fixpoint split (c : ascii) (s : str) : list str :=
  match s with
  | EmptyString => [EmptyString]
  | String a r =>
      if Ascii.eqb a c then EmptyString :: split c r
      else match split c r with
           | x :: xs => String a x :: xs
           | [] => [String a EmptyString]
           end
  end.

(** [sep.join(l)]. *)
Definition join (sep : str) (l : list str) : str := String.concat sep l.

Fixpoint contains (c : ascii) (s : str) : bool :=
  match s with
  | EmptyString => false
  | String a r => Ascii.eqb a c || contains c r
  end.

(** [str(n)] and [f"{n}"] for an [int]. *)
Definition str_of_int (n : Z) : str := NilZero.string_of_int (Z.to_int n).

Definition is_space (a : ascii) : bool :=
  let n := N_of_ascii a in
  ((9 <=? n) && (n <=? 13))%N || ((28 <=? n) && (n <=? 32))%N.

Fixpoint lstrip (s : str) : str :=
  match s with
  | String a r => if is_space a then lstrip r else s
  | EmptyString => EmptyString
  end.

Fixpoint rstrip (s : str) : str :=
  match s with
  | EmptyString => EmptyString
  | String a r =>
      match rstrip r with
      | EmptyString => if is_space a then EmptyString else String a EmptyString
      | r' => String a r'
      end
  end.

Definition digit_val (a : ascii) : option Z :=
  let n := N_of_ascii a in
  if ((48 <=? n) && (n <=? 57))%N then Some (Z.of_N n - 48)%Z else None.

(** Digits with single underscores between them, most significant first;
    [after_digit] says whether the previous character was a digit. *)
Fixpoint digits (acc : Z) (after_digit : bool) (s : str) : option Z :=
  match s with
  | EmptyString => if after_digit then Some acc else None
  | String a r =>
      match digit_val a with
      | Some d => digits (10 * acc + d)%Z true r
      | None =>
          if Ascii.eqb a "_" && after_digit
          then match r with
               | EmptyString => None
               | String a' _ =>
                   match digit_val a' with
                   | Some _ => digits acc false r
                   | None => None
                   end
               end
          else None
      end
  end.

(** [int(s)] on ASCII text: surrounding white space, an optional sign,
    decimal digits with single underscores between them.  [None] stands
    for [ValueError]. *)
Definition int (s : str) : option Z :=
  match lstrip (rstrip s) with
  | String "-" r => option_map Z.opp (digits 0 false r)
  | String "+" r => digits 0 false r
  | t => digits 0 false t
  end.

(** The number a run of decimal digits denotes, most significant first,
    continuing from [acc]. *)
Fixpoint uint_value (acc : Z) (d : Decimal.uint) : Z :=
  match d with
  | Decimal.Nil => acc
  | Decimal.D0 l => uint_value (10 * acc + 0)%Z l
  | Decimal.D1 l => uint_value (10 * acc + 1)%Z l
  | Decimal.D2 l => uint_value (10 * acc + 2)%Z l
  | Decimal.D3 l => uint_value (10 * acc + 3)%Z l
  | Decimal.D4 l => uint_value (10 * acc + 4)%Z l
  | Decimal.D5 l => uint_value (10 * acc + 5)%Z l
  | Decimal.D6 l => uint_value (10 * acc + 6)%Z l
  | Decimal.D7 l => uint_value (10 * acc + 7)%Z l
  | Decimal.D8 l => uint_value (10 * acc + 8)%Z l
  | Decimal.D9 l => uint_value (10 * acc + 9)%Z l
  end.

Definition is_digit (a : ascii) : bool :=
  let n := N_of_ascii a in ((48 <=? n) && (n <=? 57))%N.

Fixpoint all_digits (s : str) : bool :=
  match s with
  | EmptyString => true
  | String a r => is_digit a && all_digits r
  end.

Definition is_ascii (a : ascii) : bool := (N_of_ascii a <? 128)%N.

Fixpoint all_ascii (s : str) : bool :=
  match s with
  | EmptyString => true
  | String a r => is_ascii a && all_ascii r
  end.

End Py.

(* ================================================================== *)
(** ** [os.path] (POSIX) *)
(* ================================================================== *)

Module posixpath.
Import Py.

(** [os.path.join(a, b)]. *)
Definition join (a p : str) : str :=
  if startswith p "/" then p
  else if String.eqb a EmptyString || endswith a "/" then a ++ p
  else a ++ "/" ++ p.

(** One turn of the component loop of [normpath]; the list under
    construction is kept newest first. *)
Definition norm_step (initial_slashes : nat) (new_comps : list str) (comp : str)
  : list str :=
  if String.eqb comp EmptyString || String.eqb comp "." then new_comps
  else if negb (String.eqb comp "..")
          || (Nat.eqb initial_slashes 0 && match new_comps with [] => true | _ => false end)
          || match new_comps with c :: _ => String.eqb c ".." | [] => false end
       then comp :: new_comps
       else match new_comps with
            | _ :: r => r
            | [] => []
            end.

Definition initial_slashes (path : str) : nat :=
  if startswith path "/" then
    if startswith path "//" && negb (startswith path "///") then 2 else 1
  else 0.

Fixpoint slashes (n : nat) : str :=
  match n with
  | O => EmptyString
  | S k => String "/" (slashes k)
  end.

(** [os.path.normpath(path)]. *)
Definition normpath (path : str) : str :=
  if String.eqb path EmptyString then "."
  else
    let n := initial_slashes path in
    let comps := rev (fold_left (norm_step n) (split "/" path) []) in
    let p := slashes n ++ Py.join "/" comps in
    if String.eqb p EmptyString then "." else p.

(** [os.path.basename(p)]: what follows the last slash. *)
Definition basename (p : str) : str := List.last (split "/" p) EmptyString.

End posixpath.

(* ================================================================== *)
(** ** The file tree and the system calls that read it *)
(* ================================================================== *)

Module FS.
Import Py.

(** A directory carries the size [stat] reports for it (4096 on most Linux
    file systems) and its entries in the order [listdir] yields them. *)
Inductive node :=
| File (data : bytes)
| Dir (st_size : Z) (entries : list (str * node)).

(** The tree and the process's working directory (component names from the
    root of the tree). *)
Record filesystem := mkFs { root : node; cwd : list str }.

Fixpoint lookup (name : str) (entries : list (str * node)) : option node :=
  match entries with
  | [] => None
  | (n, x) :: rest => if String.eqb n name then Some x else lookup name rest
  end.

(** Path resolution, one component at a time.  [up] holds the ancestors of
    [cur], nearest first.  Every step, also an empty component (a doubled or
    trailing slash), [.] and [..], needs [cur] to be a directory; [..] at the
    root stays at the root. *)
Fixpoint walk (up : list node) (cur : node) (comps : list str)
  : option (list node * node) :=
  match comps with
  | [] => Some (up, cur)
  | c :: rest =>
      match cur with
      | File _ => None
      | Dir _ entries =>
          if String.eqb c EmptyString || String.eqb c "." then walk up cur rest
          else if String.eqb c ".." then
            match up with
            | [] => walk [] cur rest
            | p :: up' => walk up' p rest
            end
          else
            match lookup c entries with
            | Some n => walk (cur :: up) n rest
            | None => None
            end
      end
  end.

Definition path_comps (fs : filesystem) (path : str) : list str :=
  if startswith path "/" then split "/" path
  else (cwd fs ++ split "/" path)%list.

(** What the kernel finds at [path]; the empty path names nothing. *)
Definition resolve (fs : filesystem) (path : str) : option node :=
  if String.eqb path EmptyString then None
  else option_map snd (walk [] (root fs) (path_comps fs path)).

(** [os.path.exists]. *)
Definition path_exists (fs : filesystem) (path : str) : bool :=
  match resolve fs path with Some _ => true | None => false end.

(** [os.path.isfile]. *)
Definition isfile (fs : filesystem) (path : str) : bool :=
  match resolve fs path with Some (File _) => true | _ => false end.

Definition len (l : bytes) : Z := Z.of_nat (List.length l).

End FS.

(* ================================================================== *)
(** ** The world: peer script, clock, counter, trace; and its monad *)
(* ================================================================== *)

Module Sys.
Import Py FS.

Inductive exn :=
| FileNotFoundError (path : str)
| IsADirectoryError (path : str)
| NotADirectoryError (path : str)
| UnicodeDecodeError
| ValueError
| ZeroDivisionError
| SocketTimeout
| ConnectionRefusedError
| OSError (msg : str).

(** [str(e)]. *)
Definition str_exn (e : exn) : str :=
  match e with
  | FileNotFoundError p => "[Errno 2] No such file or directory: '" ++ p ++ "'"
  | IsADirectoryError p => "[Errno 21] Is a directory: '" ++ p ++ "'"
  | NotADirectoryError p => "[Errno 20] Not a directory: '" ++ p ++ "'"
  | UnicodeDecodeError => "'utf-8' codec can't decode bytes"
  | ValueError => "invalid literal for int() with base 10"
  | ZeroDivisionError => "division by zero"
  | SocketTimeout => "timed out"
  | ConnectionRefusedError => "[Errno 111] Connection refused"
  | OSError msg => msg
  end.

(** What one [recv] call meets: bytes from the peer (none: the peer has shut
    the stream down) or a failure such as the 60 second timeout. *)
Inductive recv_ev :=
| RecvData (data : bytes)
| RecvRaise (e : exn).

Inductive log_entry :=
| LogInvalidRequest (client_ip request : str)
| LogHandlerError (client_ip : str) (e : exn)
| LogConnectionClosed (client_ip : str) (active : Z)
| LogTraversal (client_ip filename : str)
| LogNotFound (filepath client_ip : str)
| LogFileSent (filename : str) (file_size : Z) (client_ip : str)
| LogTransferRate (transfer_rate duration : Q)
| LogSendError (client_ip : str) (e : exn)
| LogListSent (client_ip : str)
| LogListError (client_ip : str) (e : exn).

(** The client's [print] calls. *)
Inductive output :=
| OutConnecting (server_address : str) (server_port : Z)
| OutConnected (filename : str)
| OutServerError (text : str)
| OutFileFound (file_size : Z)
| OutUnexpected
| OutProgress (arrow spaces : Z) (percent : Q) (current total : Z)
| OutReceived (save_as : str)
| OutRate (transfer_rate duration : Q)
| OutRefused
| OutTimedOut
| OutError (e : exn)
| OutAvailable
| OutEntry (i : Z) (file : str).

(** Observable actions, oldest first in a trace. *)
Inductive event :=
| SetTimeout (seconds : Z)
| Connect
| Send (data : bytes)
| SendAll (data : bytes)
| SendFailed (data : bytes) (e : exn)
| SendAllFailed (data : bytes) (e : exn)
| Close
| Log (l : log_entry)
| Print (o : output).

Record world := mkWorld {
  fs : filesystem;                  (* the tree the server reads *)
  inbox : list recv_ev;             (* what successive [recv] calls meet *)
  send_faults : list (option exn);  (* what successive [send]/[sendall] calls meet *)
  connect_fault : option exn;       (* what the client's [connect] meets *)
  close_fault : option exn;         (* what [close] meets *)
  open_fault : str -> option exn;   (* what the client's [open(., 'wb')] meets *)
  clock : list Q;                   (* successive [time.time()] readings *)
  active_connections : Z;           (* [self.active_connections] *)
  files : list (str * bytes);       (* files the client has written *)
  trace : list event
}.

Definition with_inbox (i : list recv_ev) (w : world) : world :=
  mkWorld (fs w) i (send_faults w) (connect_fault w) (close_fault w) (open_fault w)
          (clock w) (active_connections w) (files w) (trace w).

Definition with_send_faults (s : list (option exn)) (w : world) : world :=
  mkWorld (fs w) (inbox w) s (connect_fault w) (close_fault w) (open_fault w)
          (clock w) (active_connections w) (files w) (trace w).

Definition with_clock (c : list Q) (w : world) : world :=
  mkWorld (fs w) (inbox w) (send_faults w) (connect_fault w) (close_fault w) (open_fault w)
          c (active_connections w) (files w) (trace w).

Definition with_active (a : Z) (w : world) : world :=
  mkWorld (fs w) (inbox w) (send_faults w) (connect_fault w) (close_fault w) (open_fault w)
          (clock w) a (files w) (trace w).

Definition with_files (f : list (str * bytes)) (w : world) : world :=
  mkWorld (fs w) (inbox w) (send_faults w) (connect_fault w) (close_fault w) (open_fault w)
          (clock w) (active_connections w) f (trace w).

Definition emit (e : event) (w : world) : world :=
  mkWorld (fs w) (inbox w) (send_faults w) (connect_fault w) (close_fault w) (open_fault w)
          (clock w) (active_connections w) (files w) (trace w ++ [e])%list.

(** The world once sends have consumed the fault script down to [s] and
    appended [evs] to the trace. *)
Definition after_sends (s : list (option exn)) (evs : list event) (w : world) : world :=
  mkWorld (fs w) (inbox w) s (connect_fault w) (close_fault w) (open_fault w)
          (clock w) (active_connections w) (files w) (trace w ++ evs)%list.

(** The world once a call has consumed the scripts down to [ib], [sf] and
    [clk], left the client's files as [fl] and appended [evs] to the trace. *)
Definition evolve (ib : list recv_ev) (sf : list (option exn)) (clk : list Q)
  (fl : list (str * bytes)) (evs : list event) (w : world) : world :=
  mkWorld (fs w) ib sf (connect_fault w) (close_fault w) (open_fault w) clk
          (active_connections w) fl (trace w ++ evs)%list.

(** How a call ends: a value, an exception, or the loop budget ran out
    ([Diverge]; no handler catches it, and the budgets below are shown to
    suffice). *)
Inductive outcome (A : Type) :=
| Ret (a : A)
| Raise (e : exn)
| Diverge.
Arguments Ret {A} a.
Arguments Raise {A} e.
Arguments Diverge {A}.

Definition M (A : Type) : Type := world -> outcome A * world.

Definition ret {A} (a : A) : M A := fun w => (Ret a, w).
Definition raise {A} (e : exn) : M A := fun w => (Raise e, w).
Definition diverge {A} : M A := fun w => (Diverge, w).

Definition bind {A B} (m : M A) (k : A -> M B) : M B :=
  fun w =>
    let (r, w') := m w in
    match r with
    | Ret a => k a w'
    | Raise e => (Raise e, w')
    | Diverge => (Diverge, w')
    end.

(** [try: m / except Exception as e: h e]. *)
Definition try_except {A} (m : M A) (h : exn -> M A) : M A :=
  fun w =>
    let (r, w') := m w in
    match r with
    | Raise e => h e w'
    | Ret a => (Ret a, w')
    | Diverge => (Diverge, w')
    end.

(** [try: m / finally: f]: [f] always runs; when it raises, its exception
    replaces the outcome of [m]. *)
Definition try_finally {A} (m : M A) (f : M unit) : M A :=
  fun w =>
    let (r, w') := m w in
    match r with
    | Diverge => (Diverge, w')
    | _ =>
        let (r', w'') := f w' in
        match r' with
        | Ret _ => (r, w'')
        | Raise e => (Raise e, w'')
        | Diverge => (Diverge, w'')
        end
    end.

Definition lift_option {A} (e : exn) (o : option A) : M A :=
  match o with
  | Some a => ret a
  | None => raise e
  end.

Definition run {A} (m : M A) (w : world) : outcome A := fst (m w).
Definition exec {A} (m : M A) (w : world) : world := snd (m w).

Declare Scope monad_scope.
Delimit Scope monad_scope with monad.
Notation "x <- m ;; k" := (bind m (fun x => k))
  (at level 61, m at next level, right associativity) : monad_scope.
Notation "m ;; k" := (bind m (fun _ => k))
  (at level 61, right associativity) : monad_scope.
Local Open Scope monad_scope.

(** *** Primitives *)

Definition log (l : log_entry) : M unit := fun w => (Ret tt, emit (Log l) w).
Definition print (o : output) : M unit := fun w => (Ret tt, emit (Print o) w).

(** [conn.settimeout(s)]. *)
Definition settimeout (s : Z) : M unit := fun w => (Ret tt, emit (SetTimeout s) w).

(** What a [recv(bufsize)] call meets at the head of the script, and the
    script left for later calls: at most [bufsize] bytes of what has arrived,
    what does not fit staying for the next call.  Past the end of the script
    the peer has shut down and [recv] yields no bytes. *)
Definition next_recv (bufsize : Z) (script : list recv_ev)
  : (bytes + exn) * list recv_ev :=
  match script with
  | [] => (inl [], [])
  | RecvRaise e :: rest => (inr e, rest)
  | RecvData data :: rest =>
      if (len data <=? bufsize)%Z then (inl data, rest)
      else (inl (firstn (Z.to_nat bufsize) data),
            RecvData (skipn (Z.to_nat bufsize) data) :: rest)
  end.

(** [conn.recv(bufsize)]. *)
Definition recv (bufsize : Z) : M bytes :=
  fun w =>
    let (r, rest) := next_recv bufsize (inbox w) in
    match r with
    | inl data => (Ret data, with_inbox rest w)
    | inr e => (Raise e, with_inbox rest w)
    end.

(** What a [send] or [sendall] call meets; past the end of the script the
    transport accepts everything. *)
Definition next_fault (script : list (option exn)) : option exn * list (option exn) :=
  match script with
  | [] => (None, [])
  | f :: rest => (f, rest)
  end.

Definition transmit (ev : bytes -> event) (failed : bytes -> exn -> event)
  (data : bytes) : M unit :=
  fun w =>
    let (f, rest) := next_fault (send_faults w) in
    match f with
    | Some e => (Raise e, emit (failed data e) (with_send_faults rest w))
    | None => (Ret tt, emit (ev data) (with_send_faults rest w))
    end.

(** [conn.send(data)], taken to hand the whole buffer to the transport, and
    [conn.sendall(data)]. *)
Definition send (data : bytes) : M unit := transmit Send SendFailed data.
Definition sendall (data : bytes) : M unit := transmit SendAll SendAllFailed data.

Definition connect : M unit :=
  fun w =>
    match connect_fault w with
    | Some e => (Raise e, w)
    | None => (Ret tt, emit Connect w)
    end.

Definition close : M unit :=
  fun w =>
    match close_fault w with
    | Some e => (Raise e, emit Close w)
    | None => (Ret tt, emit Close w)
    end.

Definition next_time (readings : list Q) : Q * list Q :=
  match readings with
  | [] => (0%Q, [])
  | t :: rest => (t, rest)
  end.

(** [time.time()]. *)
Definition time : M Q :=
  fun w => let (t, rest) := next_time (clock w) in (Ret t, with_clock rest w).

(** [bytes.decode()]. *)
Definition decode_ (raw : bytes) : M str := lift_option UnicodeDecodeError (decode raw).

(** [os.path.exists(path)]. *)
Definition os_path_exists (path : str) : M bool :=
  fun w => (Ret (path_exists (fs w) path), w).

(** [os.path.isfile(path)]. *)
Definition os_path_isfile (path : str) : M bool :=
  fun w => (Ret (isfile (fs w) path), w).

(** [os.path.getsize(path)]. *)
Definition getsize (path : str) : M Z :=
  fun w =>
    match resolve (fs w) path with
    | Some (File data) => (Ret (len data), w)
    | Some (Dir st_size _) => (Ret st_size, w)
    | None => (Raise (FileNotFoundError path), w)
    end.

(** [open(path, 'rb')]: the contents the handle will read. *)
Definition open_rb (path : str) : M bytes :=
  fun w =>
    match resolve (fs w) path with
    | Some (File data) => (Ret data, w)
    | Some (Dir _ _) => (Raise (IsADirectoryError path), w)
    | None => (Raise (FileNotFoundError path), w)
    end.

(** [os.listdir(path)]. *)
Definition listdir (path : str) : M (list str) :=
  fun w =>
    match resolve (fs w) path with
    | Some (Dir _ entries) => (Ret (map fst entries), w)
    | Some (File _) => (Raise (NotADirectoryError path), w)
    | None => (Raise (FileNotFoundError path), w)
    end.

Fixpoint store (name : str) (f : bytes -> bytes) (l : list (str * bytes))
  : list (str * bytes) :=
  match l with
  | [] => [(name, f [])]
  | (n, d) :: rest =>
      if String.eqb n name then (n, f d) :: rest else (n, d) :: store name f rest
  end.

Fixpoint content (name : str) (l : list (str * bytes)) : option bytes :=
  match l with
  | [] => None
  | (n, d) :: rest => if String.eqb n name then Some d else content name rest
  end.

(** [open(name, 'wb')]: creates the file or empties it. *)
Definition open_wb (name : str) : M unit :=
  fun w =>
    match open_fault w name with
    | Some e => (Raise e, w)
    | None => (Ret tt, with_files (store name (fun _ => []) (files w)) w)
    end.

(** [file.write(data)] on the handle [open_wb name] gave. *)
Definition write (name : str) (data : bytes) : M unit :=
  fun w => (Ret tt, with_files (store name (fun d => d ++ data)%list (files w)) w).

(** Python's [/] on numbers. *)
Definition truediv (x y : Q) : M Q :=
  if Qeq_bool y 0 then raise ZeroDivisionError else ret (x / y)%Q.

(** [(file_size / 1024 / 1024) / duration if duration > 0 else 0]
    ([server.py] line 138, [client.py] line 60). *)
Definition transfer_rate (file_size : Z) (duration : Q) : M Q :=
  if negb (Qle_bool duration 0) then
    kb <- truediv (inject_Z file_size) (inject_Z 1024) ;;
    mb <- truediv kb (inject_Z 1024) ;;
    truediv mb duration
  else ret 0%Q.

End Sys.

(* ================================================================== *)
(** ** [server.py]: [FileTransferServer] *)
(* ================================================================== *)

Module Server.
Import Py FS Sys.
Local Open Scope monad_scope.

(** The fields [__init__] sets from the command line; the counter
    [active_connections] lives in the world. *)
Record server := mkServer {
  host : str;
  port : Z;
  directory : str;
  buffer_size : Z
}.

(** The defaults of [__init__] and of the command line. *)
Definition default_server : server := mkServer "0.0.0.0" 12345 "." 8192.

(** [file.read(n)] on a binary file of which [rest] is left: what is read and
    what remains.  A negative [n] reads to the end. *)
Definition file_read (n : Z) (rest : bytes) : bytes * bytes :=
  if (n <? 0)%Z then (rest, [])
  else (firstn (Z.to_nat n) rest, skipn (Z.to_nat n) rest).

(** The [while True] loop of [send_file] (lines 128-133); the result is
    [bytes_sent]. *)
Fixpoint send_loop (fuel : nat) (buffer_size : Z) (rest : bytes) (bytes_sent : Z)
  : M Z :=
  match fuel with
  | O => diverge
  | S fuel' =>
      let (data, rest') := file_read buffer_size rest in
      match data with
      | [] => ret bytes_sent
      | _ :: _ =>
          sendall data ;;
          send_loop fuel' buffer_size rest' (bytes_sent + len data)
      end
  end.

(** The [except Exception as e] clause shared by [send_file] and
    [list_files]: log, then try to tell the client. *)
Definition report_error (entry : exn -> log_entry) (e : exn) : M unit :=
  log (entry e) ;;
  try_except (send (encode ("ERROR:" ++ str_exn e))) (fun _ => ret tt).

(** [send_file(self, client_conn, filename, client_ip)]. *)
Definition send_file (self : server) (filename client_ip : str) : M unit :=
  let filepath := posixpath.join (directory self) filename in
  let normalized_path := posixpath.normpath filepath in
  if negb (startswith normalized_path (posixpath.normpath (directory self))) then
    log (LogTraversal client_ip filename) ;;
    send (b "ERROR:Access denied")
  else
    try_except
      (found <- os_path_exists filepath ;;
       if negb found then
         log (LogNotFound filepath client_ip) ;;
         send (b "ERROR:File not found")
       else
         file_size <- getsize filepath ;;
         send (encode ("SIZE:" ++ str_of_int file_size)) ;;
         response <- recv 1024 ;;
         if negb (bytes_eqb response (b "READY")) then ret tt
         else
           start_time <- time ;;
           data <- open_rb filepath ;;
           _ <- send_loop (S (List.length data)) (buffer_size self) data 0 ;;
           end_time <- time ;;
           let duration := (end_time - start_time)%Q in
           rate <- transfer_rate file_size duration ;;
           log (LogFileSent filename file_size client_ip) ;;
           log (LogTransferRate rate duration))
      (report_error (LogSendError client_ip)).

(** The comprehension of [list_files] (lines 153-154). *)
Definition regular_files (fs : filesystem) (directory : str) (names : list str)
  : list str :=
  filter (fun f => isfile fs (posixpath.join directory f)) names.

(** [list_files(self, client_conn, client_ip)]. *)
Definition list_files (self : server) (client_ip : str) : M unit :=
  try_except
    (names <- listdir (directory self) ;;
     files <- (fun w => (Ret (regular_files (fs w) (directory self) names), w)) ;;
     let response := "FILES:" ++ Py.join "," files in
     send (encode response) ;;
     log (LogListSent client_ip))
    (report_error (LogListError client_ip)).

(** [self.active_connections -= 1]. *)
Definition decrement_active : M unit :=
  fun w => (Ret tt, with_active (active_connections w - 1) w).

(** [self.active_connections += 1]. *)
Definition increment_active : M unit :=
  fun w => (Ret tt, with_active (active_connections w + 1) w).

(** [handle_client(self, client_conn, client_addr)]. *)
Definition handle_client (self : server) (client_ip : str) : M unit :=
  try_finally
    (try_except
       (settimeout 60 ;;
        raw <- recv 1024 ;;
        request <- decode_ raw ;;
        if startswith request "GET:" then
          send_file self (drop 4 request) client_ip
        else if String.eqb request "LIST" then
          list_files self client_ip
        else
          log (LogInvalidRequest client_ip request) ;;
          send (b "ERROR:Invalid request"))
       (fun e => log (LogHandlerError client_ip e)))
    (try_except close (fun _ => ret tt) ;;
     decrement_active ;;
     active <- (fun w => (Ret (active_connections w), w)) ;;
     log (LogConnectionClosed client_ip active)).

(** What the handler did: the events it appended to the trace. *)
Definition new_events (before after : world) : list event :=
  skipn (List.length (trace before)) (trace after).

Definition handler_events (self : server) (client_ip : str) (w : world) : list event :=
  new_events w (exec (handle_client self client_ip) w).

(** The buffers the transport accepted, in order. *)
Fixpoint sent_messages (evs : list event) : list bytes :=
  match evs with
  | [] => []
  | Send d :: r => d :: sent_messages r
  | SendAll d :: r => d :: sent_messages r
  | _ :: r => sent_messages r
  end.

(** The buffers handed to [send] or [sendall], accepted or not, in order. *)
Fixpoint attempted (evs : list event) : list bytes :=
  match evs with
  | [] => []
  | Send d :: r => d :: attempted r
  | SendAll d :: r => d :: attempted r
  | SendFailed d _ :: r => d :: attempted r
  | SendAllFailed d _ :: r => d :: attempted r
  | _ :: r => attempted r
  end.

(** The chunks of file payload the transport accepted from [sendall], in
    order; the control messages all go through [send]. *)
Fixpoint payload_chunks (evs : list event) : list bytes :=
  match evs with
  | [] => []
  | SendAll d :: r => d :: payload_chunks r
  | _ :: r => payload_chunks r
  end.

(** Whether the event is a [sendall] call, accepted or failed. *)
Definition is_stream (e : event) : bool :=
  match e with
  | SendAll _ | SendAllFailed _ _ => true
  | _ => false
  end.

Definition is_close (e : event) : bool :=
  match e with
  | Close => true
  | _ => false
  end.

Definition is_rate (e : event) : bool :=
  match e with
  | Log (LogTransferRate _ _) => true
  | _ => false
  end.

Definition is_invalid (e : event) : bool :=
  match e with
  | Log (LogInvalidRequest _ _) => true
  | _ => false
  end.

(** Events that only [handle_client] itself produces, never [send_file] or
    [list_files]. *)
Definition is_frame (e : event) : bool :=
  match e with
  | Close | SetTimeout _ | Connect | Print _
  | Log (LogInvalidRequest _ _)
  | Log (LogHandlerError _ _)
  | Log (LogConnectionClosed _ _) => true
  | _ => false
  end.

Definition count_close (evs : list event) : nat :=
  List.length (filter is_close evs).

(** A [sendall] that raised. *)
Definition is_failed_stream (e : event) : bool :=
  match e with
  | SendAllFailed _ _ => true
  | _ => false
  end.

(** What follows the first [sendall] that raised. *)
Fixpoint after_failure (evs : list event) : list event :=
  match evs with
  | [] => []
  | SendAllFailed _ _ :: r => r
  | _ :: r => after_failure r
  end.

End Server.

(* ================================================================== *)
(** ** [client.py] *)
(* ================================================================== *)

Module Client.
Import Py FS Sys.
Local Open Scope monad_scope.

(** [int(x)] on a number: truncation toward zero. *)
Definition trunc (q : Q) : Z :=
  if Qle_bool 0 q then Qfloor q else (- Qfloor (- q))%Z.

(** [progress_bar(current, total, bar_length=50)]: the division comes
    first and raises when [total] is 0. *)
Definition progress_bar (current total : Z) : M unit :=
  ratio <- truediv (inject_Z current) (inject_Z total) ;;
  let progress := Qmin 1 ratio in
  let arrow := Z.max 0 (trunc (progress * 50)) in
  let spaces := Z.max 0 (50 - arrow) in
  let percent := (progress * 100)%Q in
  print (OutProgress arrow spaces percent current total).

(** The [while bytes_received < file_size] loop of [request_file]
    (lines 50-56); the result is [bytes_received]. *)
Fixpoint recv_loop (fuel : nat) (save_as : str) (file_size bytes_received : Z)
  : M Z :=
  match fuel with
  | O => diverge
  | S fuel' =>
      if (bytes_received <? file_size)%Z then
        data <- recv 8192 ;;
        match data with
        | [] => ret bytes_received
        | _ :: _ =>
            write save_as data ;;
            let bytes_received := (bytes_received + len data)%Z in
            progress_bar bytes_received file_size ;;
            recv_loop fuel' save_as file_size bytes_received
        end
      else ret bytes_received
  end.

(** The [except] clauses of [request_file] (lines 67-72). *)
Definition report (e : exn) : M unit :=
  match e with
  | ConnectionRefusedError => print OutRefused
  | SocketTimeout => print OutTimedOut
  | _ => print (OutError e)
  end.

(** [if not save_as: save_as = os.path.basename(filename)] (lines 17-18):
    where the download is written. *)
Definition destination (filename : str) (save_as : option str) : str :=
  match save_as with
  | Some s => if String.eqb s EmptyString then posixpath.basename filename else s
  | None => posixpath.basename filename
  end.

(** [request_file(server_address, server_port, filename, save_as=None)].
    Inside the [try] the value is [Some v] for [return v]; falling out of an
    [except] clause reaches the final [return False]. *)
Definition request_file (server_address : str) (server_port : Z) (filename : str)
  (save_as : option str) : M bool :=
  let save_as := destination filename save_as in
  print (OutConnecting server_address server_port) ;;
  r <- try_finally
         (try_except
            (connect ;;
             print (OutConnected filename) ;;
             send (encode ("GET:" ++ filename)) ;;
             raw <- recv 1024 ;;
             response <- decode_ raw ;;
             if startswith response "ERROR:" then
               print (OutServerError (drop 6 response)) ;;
               close ;;
               ret (Some false)
             else if startswith response "SIZE:" then
               file_size <- lift_option ValueError (int (drop 5 response)) ;;
               print (OutFileFound file_size) ;;
               send (b "READY") ;;
               start_time <- time ;;
               open_wb save_as ;;
               _ <- recv_loop (S (Z.to_nat file_size)) save_as file_size 0 ;;
               end_time <- time ;;
               let duration := (end_time - start_time)%Q in
               rate <- transfer_rate file_size duration ;;
               print (OutReceived save_as) ;;
               print (OutRate rate duration) ;;
               ret (Some true)
             else
               print OutUnexpected ;;
               close ;;
               ret (Some false))
            (fun e => report e ;; ret None))
         close ;;
  ret (match r with Some v => v | None => false end).

(** [response[6:].split(',')] (line 87). *)
Definition parse_listing (response : str) : list str :=
  split "," (drop 6 response).

(** [for i, file in enumerate(files, 1): print(...)]. *)
Fixpoint print_entries (i : Z) (files : list str) : M unit :=
  match files with
  | [] => ret tt
  | file :: rest => print (OutEntry i file) ;; print_entries (i + 1)%Z rest
  end.

(** [list_files(server_address, server_port)]. *)
Definition list_files (server_address : str) (server_port : Z) : M unit :=
  try_finally
    (try_except
       (connect ;;
        send (b "LIST") ;;
        raw <- recv 8192 ;;
        response <- decode_ raw ;;
        if startswith response "FILES:" then
          let files := parse_listing response in
          print OutAvailable ;;
          print_entries 1 files
        else print (OutServerError response))
       (fun e => print (OutError e)))
    close.

(** What [list_files] did: the events it appended to the trace. *)
Definition list_events (server_address : str) (server_port : Z) (w : world)
  : list event :=
  skipn (List.length (trace w)) (trace (exec (list_files server_address server_port) w)).

(** The names the client shows for a response: what [list_files] prints. *)
Fixpoint shown_entries (evs : list event) : list str :=
  match evs with
  | [] => []
  | Print (OutEntry _ file) :: r => file :: shown_entries r
  | _ :: r => shown_entries r
  end.

Definition is_progress (e : event) : bool :=
  match e with
  | Print (OutProgress _ _ _ _ _) => true
  | _ => false
  end.

Definition is_success (e : event) : bool :=
  match e with
  | Print (OutReceived _) => true
  | _ => false
  end.

Definition is_out_rate (e : event) : bool :=
  match e with
  | Print (OutRate _ _) => true
  | _ => false
  end.

Definition is_found (e : event) : bool :=
  match e with
  | Print (OutFileFound _) => true
  | _ => false
  end.

(** What [request_file] did: the events it appended to the trace. *)
Definition request_events (server_address : str) (server_port : Z) (filename : str)
  (save_as : option str) (w : world) : list event :=
  skipn (List.length (trace w))
        (trace (exec (request_file server_address server_port filename save_as) w)).

End Client.

(* ================================================================== *)
(** ** The shared counter under interleaving *)
(* ================================================================== *)

Module Counter.

(** [self.active_connections += 1] (the accept loop, [server.py] line 44)
    and [self.active_connections -= 1] (each handler's [finally], line 94)
    are attribute updates: the interpreter loads the attribute, computes,
    and stores the result, and another thread may run in between.  Neither
    statement is inside a [with lock:] block; [server.py] creates no lock.

    A thread is the list of updates it still has to perform (the amount each
    adds) and, while it is between the load and the store of the first of
    them, the value it loaded. *)
Record thread := mkThread {
  pending : list Z;
  loaded : option Z
}.

Record machine := mkMachine {
  count : Z;
  threads : list thread
}.

(** The accept loop about to accept [n] connections, and a handler about to
    close its connection. *)
Definition accept_thread (n : nat) : thread := mkThread (repeat 1 n) None.
Definition handler_thread : thread := mkThread [-1] None.

(** One atomic step of a thread against the shared count. *)
Definition step_thread (c : Z) (t : thread) : Z * thread :=
  match pending t, loaded t with
  | [], _ => (c, t)
  | _ :: _, None => (c, mkThread (pending t) (Some c))
  | d :: rest, Some v => (v + d, mkThread rest None)
  end.

Fixpoint step_at (i : nat) (c : Z) (ts : list thread) : Z * list thread :=
  match ts, i with
  | [], _ => (c, [])
  | t :: rest, O => let (c', t') := step_thread c t in (c', t' :: rest)
  | t :: rest, S j => let (c', rest') := step_at j c rest in (c', t :: rest')
  end.

Definition step (i : nat) (m : machine) : machine :=
  let (c, ts) := step_at i (count m) (threads m) in mkMachine c ts.

(** Run a schedule: the thread to step next, in order. *)
Definition run (schedule : list nat) (m : machine) : machine :=
  fold_left (fun m i => step i m) schedule m.

Definition finished (m : machine) : bool :=
  forallb (fun t => match pending t with [] => true | _ => false end) (threads m).

Definition in_update (t : thread) : bool :=
  match loaded t with Some _ => true | None => false end.

(** Threads that have loaded the count and not yet stored it. *)
Definition updating (m : machine) : nat :=
  List.length (filter in_update (threads m)).

(** The change all pending updates would make if none were lost. *)
Definition owed_of (ts : list thread) : Z :=
  fold_right Z.add 0 (flat_map pending ts).

Definition owed (m : machine) : Z := owed_of (threads m).

(** No thread is between its load and its store. *)
Definition quiescent (ts : list thread) : Prop :=
  Forall (fun t => loaded t = None) ts.

(** The server's threads: the accept loop with [accepts] connections still
    to accept, and [handlers] handlers that have yet to close theirs. *)
Definition server_machine (c : Z) (accepts handlers : nat) : machine :=
  mkMachine c (accept_thread accepts :: repeat handler_thread handlers).

(** A schedule in which no two updates overlap: each scheduled thread does
    its load and its store back to back. *)
Definition serial (ids : list nat) : list nat := flat_map (fun i => [i; i]) ids.

End Counter.

(* ================================================================== *)
(** ** [server.py]: the listening socket, [start], [stop] and [main] *)
(* ================================================================== *)

Module Listener.
Import Py.

(** The lines [start] and [stop] log. *)
Inductive entry :=
| Started (host : str) (port : Z) (directory : str)
| NewConnection (ip : str) (port : Z) (active : Z)
| AcceptFailed (text : str)
| StartFailed (text : str)
| Stopped.

(** What the listener does that can be seen from outside.  [Spawn] is the
    start of a handler thread for the connection of that peer. *)
Inductive event :=
| Socket
| SetReuse
| Bind (host : str) (port : Z)
| Listen (backlog : Z)
| Spawn (ip : str) (port : Z)
| CloseSocket
| CloseSocketFailed
| Log (e : entry)
| Print (text : str).

(** Which of the socket calls raise, each with the text of its exception;
    only [str(e)] of an exception is ever used (lines 55, 57). *)
Record faults := mkFaults {
  socket_fault : option str;
  reuse_fault : option str;
  bind_fault : option str;
  listen_fault : option str;
  close_fault : option str
}.

(** What one turn of the accept loop meets: a connection, whose handler
    thread starts or fails to start; an exception raised by [accept]; or
    the interrupt from the keyboard, which is no [Exception]. *)
Inductive accept_ev :=
| Connection (ip : str) (port : Z) (thread_fault : option str)
| AcceptError (text : str)
| KeyboardInterrupt.

(** The attributes [__init__] sets besides the configuration. *)
Record state := mkState {
  running : bool;
  server_socket : bool;
  active_connections : Z;
  trace : list event
}.

(** [__init__] (lines 20-27): no socket, not running, no connection. *)
Definition init : state := mkState false false 0 [].

Definition emit (e : event) (st : state) : state :=
  mkState (running st) (server_socket st) (active_connections st) (trace st ++ [e]).

Definition with_running (r : bool) (st : state) : state :=
  mkState r (server_socket st) (active_connections st) (trace st).

Definition with_socket (s : bool) (st : state) : state :=
  mkState (running st) s (active_connections st) (trace st).

Definition with_active (n : Z) (st : state) : state :=
  mkState (running st) (server_socket st) n (trace st).

(** How a call ends: it returns, the keyboard interrupt leaves it, or it
    stays blocked in [accept] for ever. *)
Inductive outcome := Returned | Interrupted | Blocked.

(** [stop(self)] (lines 62-70). *)
Definition stop (env : faults) (st : state) : state :=
  let st := with_running false st in
  let st :=
    if server_socket st then
      match close_fault env with
      | Some _ => emit CloseSocketFailed st
      | None => emit CloseSocket st
      end
    else st in
  emit (Log Stopped) st.

(** Lines 32-36: create the socket, set the option, bind, listen.  The
    result is the text of the exception of the first call that raises. *)
Definition setup (self : Server.server) (env : faults) (st : state)
  : option str * state :=
  match socket_fault env with
  | Some e => (Some e, st)
  | None =>
      let st := emit Socket (with_socket true st) in
      match reuse_fault env with
      | Some e => (Some e, st)
      | None =>
          let st := emit SetReuse st in
          match bind_fault env with
          | Some e => (Some e, st)
          | None =>
              let st := emit (Bind (Server.host self) (Server.port self)) st in
              match listen_fault env with
              | Some e => (Some e, st)
              | None => (None, emit (Listen 10) st)
              end
          end
      end
  end.

(** The [except Exception] clause of the loop (lines 54-56). *)
Definition accept_failed (text : str) (st : state) : state :=
  if running st then emit (Log (AcceptFailed text)) st else st.

(** The [while self.running] loop (lines 41-56) over what its calls of
    [accept] meet; with nothing left to meet, [accept] blocks. *)
Fixpoint accept_loop (script : list accept_ev) (st : state) : outcome * state :=
  if running st then
    match script with
    | [] => (Blocked, st)
    | Connection ip port thread_fault :: rest =>
        let st := with_active (active_connections st + 1) st in
        let st := emit (Log (NewConnection ip port (active_connections st))) st in
        match thread_fault with
        | None => accept_loop rest (emit (Spawn ip port) st)
        | Some text => accept_loop rest (accept_failed text st)
        end
    | AcceptError text :: rest => accept_loop rest (accept_failed text st)
    | KeyboardInterrupt :: _ => (Interrupted, st)
    end
  else (Returned, st).

(** [start(self)] (lines 29-60).  The [finally] clause runs when the body
    is left, not while it is blocked. *)
Definition start (self : Server.server) (env : faults) (script : list accept_ev)
  (st : state) : outcome * state :=
  let (err, st) := setup self env st in
  let (r, st) :=
    match err with
    | Some text => (Returned, emit (Log (StartFailed text)) st)
    | None =>
        let st := with_running true st in
        let st := emit (Log (Started (Server.host self) (Server.port self)
                               (Server.directory self))) st in
        accept_loop script st
    end in
  match r with
  | Blocked => (Blocked, st)
  | _ => (r, stop env st)
  end.


Definition is_interrupt (a : accept_ev) : bool :=
  match a with
  | KeyboardInterrupt => true
  | _ => false
  end.

(** What the loop meets before the first interrupt. *)
Fixpoint before_interrupt (script : list accept_ev) : list accept_ev :=
  match script with
  | [] => []
  | KeyboardInterrupt :: _ => []
  | a :: rest => a :: before_interrupt rest
  end.

(** The number of connections accepted. *)
Fixpoint connections (script : list accept_ev) : Z :=
  match script with
  | [] => 0
  | Connection _ _ _ :: rest => 1 + connections rest
  | _ :: rest => connections rest
  end.

(** The peers whose handler thread started, in order. *)
Fixpoint handled (script : list accept_ev) : list (str * Z) :=
  match script with
  | [] => []
  | Connection ip port None :: rest => (ip, port) :: handled rest
  | _ :: rest => handled rest
  end.

(** The texts of the exceptions met, in order. *)
Fixpoint failures (script : list accept_ev) : list str :=
  match script with
  | [] => []
  | Connection _ _ (Some text) :: rest => text :: failures rest
  | AcceptError text :: rest => text :: failures rest
  | _ :: rest => failures rest
  end.

Fixpoint threads (evs : list event) : list (str * Z) :=
  match evs with
  | [] => []
  | Spawn ip port :: r => (ip, port) :: threads r
  | _ :: r => threads r
  end.

Fixpoint accept_errors (evs : list event) : list str :=
  match evs with
  | [] => []
  | Log (AcceptFailed text) :: r => text :: accept_errors r
  | _ :: r => accept_errors r
  end.

Definition is_stopped (e : event) : bool :=
  match e with
  | Log Stopped => true
  | _ => false
  end.

Definition is_close (e : event) : bool :=
  match e with
  | CloseSocket | CloseSocketFailed => true
  | _ => false
  end.

Definition is_started (e : event) : bool :=
  match e with
  | Log (Started _ _ _) => true
  | _ => false
  end.

Definition count (p : event -> bool) (evs : list event) : nat :=
  List.length (filter p evs).

(** Events among which the socket is not closed and neither the start nor
    the stop of the server is logged. *)
Definition quiet (evs : list event) : Prop :=
  count is_stopped evs = 0%nat /\ count is_close evs = 0%nat
  /\ count is_started evs = 0%nat.

(** Set-up succeeds: none of its four calls raises. *)
Definition listens (env : faults) : Prop :=
  socket_fault env = None /\ reuse_fault env = None
  /\ bind_fault env = None /\ listen_fault env = None.

End Listener.

(* ================================================================== *)
(** ** Vocabulary of the specification *)
(* ================================================================== *)

Module Spec.
Import Py FS Sys.

(** The throughput in MB/s: size / 2^20 / duration. *)
Definition mb_per_s (file_size : Z) (duration : Q) : Q :=
  (inject_Z file_size / inject_Z (2 ^ 20) / duration)%Q.

(** What a reported pair of rate and duration must satisfy. *)
Definition rate_ok (file_size : Z) (duration rate : Q) : Prop :=
  ((0 < duration)%Q -> (rate == mb_per_s file_size duration)%Q)
  /\ ((duration == 0)%Q -> rate = 0%Q).

(** Directory entries as a file system holds them: names that are not
    empty, not [.] or [..], free of slashes, and pairwise distinct. *)
Definition plain_name (n : str) : bool :=
  negb (String.eqb n EmptyString) && negb (String.eqb n ".")
  && negb (String.eqb n "..") && negb (contains "/" n).




(** The components of a normalized path; the path [.] has none. *)
Definition components (p : str) : list str :=
  filter (fun c => negb (String.eqb c EmptyString || String.eqb c "."))
         (split "/" (posixpath.normpath p)).

Fixpoint strip_prefix (a l : list str) : option (list str) :=
  match a, l with
  | [], _ => Some l
  | _ :: _, [] => None
  | x :: a', y :: l' => if String.eqb x y then strip_prefix a' l' else None
  end.

(** Whether [path], once normalized, lies in the directory [root] or below
    it: both absolute or both relative, the components of [root] leading
    those of [path], and no step up right after them. *)
Definition under_root (root path : str) : bool :=
  Bool.eqb (startswith (posixpath.normpath root) "/")
           (startswith (posixpath.normpath path) "/")
  && match strip_prefix (components root) (components path) with
     | Some (c :: _) => negb (String.eqb c "..")
     | Some [] => true
     | None => false
     end.

(** No event of the list satisfies [p]. *)
Definition none (p : event -> bool) (evs : list event) : Prop :=
  Forall (fun e => p e = false) evs.

(** The server reports a rate at most once, right after the line that logs
    the size, with the rate that size and the logged duration give, and
    streams nothing afterwards. *)
Definition rate_reported_once (client_ip : str) (evs : list event) : Prop :=
  none Server.is_rate evs
  \/ exists pre filename file_size rate duration post,
       evs = (pre ++ Log (LogFileSent filename file_size client_ip)
                  :: Log (LogTransferRate rate duration) :: post)%list
       /\ none Server.is_rate pre
       /\ none Server.is_rate post
       /\ none Server.is_stream post
       /\ rate_ok file_size duration rate.


End Spec.

(* ================================================================== *)
(** ** Sample worlds *)
(* ================================================================== *)

Module Examples.
Import Py FS Sys Server.

(** [/srv/pub] is what the samples serve; [/srv/pub_private], [/srv/empty]
    and [/srv/secret.txt] lie beside it. *)
Definition tree : node :=
  Dir 4096
    [("srv", Dir 4096
       [("pub", Dir 4096
           [("a.txt", File (b "hello world"));
            ("sub", Dir 4096 [("c.txt", File (b "cc"))]);
            (".hidden", File (b "h"));
            ("zero.bin", File [])]);
        ("pub_private", Dir 4096 [("key.pem", File (b "SECRET"))]);
        ("empty", Dir 4096 []);
        ("secret.txt", File (b "TOP"))])].

(** The process runs in [/srv/pub]; the transport never fails; the clock
    reads 1, then 3; one connection is active; [script] is what the peer
    sends. *)
Definition world_of (script : list recv_ev) : world :=
  mkWorld (mkFs tree ["srv"; "pub"]) script [] None None (fun _ => None)
          [1; 3]%Q 1 [] [].

Definition serving (directory : str) (buffer_size : Z) : server :=
  mkServer "0.0.0.0" 12345 directory buffer_size.

Definition peer : str := "10.0.0.7".

End Examples.

(* ================================================================== *)
(** * Properties *)
(* ================================================================== *)

(** ** Strings *)

Module PyFacts.
Import Py.

Lemma append_nil_r (s : str) : s ++ EmptyString = s.
Proof. induction s as [|a s IH]; simpl; [reflexivity | now rewrite IH]. Qed.

Lemma append_assoc (x y z : str) : (x ++ y) ++ z = x ++ (y ++ z).
Proof. induction x as [|a x IH]; simpl; [reflexivity | now rewrite IH]. Qed.

Lemma split_not_nil (c : ascii) (s : str) : split c s <> [].
Proof.
  induction s as [|a s IH]; simpl; [discriminate |].
  destruct (Ascii.eqb a c); [discriminate |].
  destruct (split c s); discriminate.
Qed.

(** A string without the separator is its own single field. *)
Lemma split_plain (c : ascii) (s : str) :
  contains c s = false -> split c s = [s].
Proof.
  induction s as [|a s IH]; simpl; [reflexivity |].
  intros H. apply orb_false_iff in H as [Ha Hs].
  rewrite Ha, (IH Hs). reflexivity.
Qed.

(** Splitting distributes over a separator in the middle. *)
Lemma split_app (c : ascii) (x y : str) :
  split c (x ++ String c y) = (split c x ++ split c y)%list.
Proof.
  induction x as [|a x IH]; simpl.
  - now rewrite Ascii.eqb_refl.
  - destruct (Ascii.eqb a c); [now rewrite IH |].
    rewrite IH. destruct (split c x) as [|h t] eqn:E.
    + now apply split_not_nil in E.
    + reflexivity.
Qed.


(** The empty listing does not survive: joining nothing gives the empty
    string, and splitting that gives one empty field. *)
Lemma split_join_nil (c : ascii) :
  split c (join (String c EmptyString) []) = [EmptyString].
Proof. reflexivity. Qed.

Lemma startswith_app (p s : str) : startswith (p ++ s) p = true.
Proof.
  induction p as [|a p IH]; cbn [append startswith]; [reflexivity |].
  now rewrite Ascii.eqb_refl.
Qed.

Lemma drop_app (p s : str) : drop (String.length p) (p ++ s) = s.
Proof. induction p as [|a p IH]; simpl; [now destruct s | assumption]. Qed.

Lemma bytes_eqb_eq (x y : bytes) : bytes_eqb x y = true <-> x = y.
Proof.
  revert y. induction x as [|a x IH]; intros [|c y]; simpl; try easy.
  rewrite andb_true_iff, IH. split.
  - intros [H1 H2]. apply Byte.byte_dec_bl in H1. now subst.
  - intros H. inversion H; subst. split; [now apply Byte.byte_dec_lb | reflexivity].
Qed.

Lemma decode_encode (s : str) :
  utf8_valid (encode s) = true -> decode (encode s) = Some s.
Proof.
  intros H. unfold decode. rewrite H. unfold encode.
  now rewrite string_of_list_byte_of_string.
Qed.

End PyFacts.

(** ** The transfer rate *)

Module RateFacts.
Import Py FS Sys Spec.

(** [transfer_rate] always returns and leaves the world alone. *)
Lemma transfer_rate_returns (file_size : Z) (duration : Q) (w : world) :
  exists r, transfer_rate file_size duration w = (Ret r, w).
Proof.
  unfold transfer_rate.
  destruct (Qle_bool duration 0) eqn:Hd; simpl.
  - now exists 0%Q.
  - unfold bind, truediv. simpl.
    destruct (Qeq_bool duration 0) eqn:Hz.
    + apply Qeq_bool_eq in Hz.
      assert (Qle_bool duration 0 = true) as Hle
        by (apply Qle_bool_iff; rewrite Hz; apply Qle_refl).
      congruence.
    + eexists. reflexivity.
Qed.

Lemma transfer_rate_positive (file_size : Z) (duration : Q) (w : world) :
  (0 < duration)%Q ->
  exists r, transfer_rate file_size duration w = (Ret r, w)
            /\ (r == mb_per_s file_size duration)%Q.
Proof.
  intros Hpos. unfold transfer_rate.
  assert (Qle_bool duration 0 = false) as Hd.
  { destruct (Qle_bool duration 0) eqn:E; [| reflexivity].
    apply Qle_bool_iff in E. exfalso. apply (Qlt_not_le _ _ Hpos E). }
  assert (Qeq_bool duration 0 = false) as Hz.
  { destruct (Qeq_bool duration 0) eqn:E; [| reflexivity].
    apply Qeq_bool_eq in E. rewrite E in Hpos. now apply Qlt_irrefl in Hpos. }
  rewrite Hd. simpl. unfold bind, truediv. simpl. rewrite Hz.
  eexists. split; [reflexivity |].
  unfold mb_per_s.
  assert (~ duration == 0)%Q as Hnz by (now apply Qeq_bool_neq).
  change (inject_Z (2 ^ 20)) with (inject_Z 1024 * inject_Z 1024)%Q.
  field. assumption.
Qed.

Lemma transfer_rate_zero (file_size : Z) (duration : Q) (w : world) :
  (duration <= 0)%Q -> transfer_rate file_size duration w = (Ret 0%Q, w).
Proof.
  intros Hle. unfold transfer_rate.
  apply Qle_bool_iff in Hle. now rewrite Hle.
Qed.

Lemma transfer_rate_ok (file_size : Z) (duration : Q) (w : world) :
  exists r, transfer_rate file_size duration w = (Ret r, w)
            /\ rate_ok file_size duration r.
Proof.
  destruct (Qlt_le_dec 0 duration) as [Hpos | Hle].
  - destruct (transfer_rate_positive file_size duration w Hpos) as [r [E Hr]].
    exists r. split; [assumption |]. split; [now intros _ |].
    intros Hz. rewrite Hz in Hpos. now apply Qlt_irrefl in Hpos.
  - exists 0%Q. split; [now apply transfer_rate_zero |].
    split; [| reflexivity].
    intros Hpos. exfalso. apply (Qlt_not_le _ _ Hpos Hle).
Qed.

End RateFacts.

(** ** The shared counter *)

Module CounterFacts.
Import Counter.

Lemma owed_of_cons (t : thread) (ts : list thread) :
  owed_of (t :: ts) = fold_right Z.add 0 (pending t) + owed_of ts.
Proof.
  unfold owed_of. simpl. rewrite fold_right_app.
  generalize (fold_right Z.add 0 (flat_map pending ts)) as z.
  induction (pending t) as [|d l IH]; intros z; simpl; [reflexivity |].
  rewrite IH. lia.
Qed.

(** A load followed at once by the store of the same thread moves one
    update from what is owed to the count. *)
Lemma update_thread (c : Z) (t : thread) :
  loaded t = None ->
  let (c1, t1) := step_thread c t in
  let (c2, t2) := step_thread c1 t1 in
  c2 + fold_right Z.add 0 (pending t2) = c + fold_right Z.add 0 (pending t)
  /\ loaded t2 = None.
Proof.
  destruct t as [[|d rest] l]; simpl; intros ->; simpl; split; auto; lia.
Qed.

Lemma update_at (i : nat) (c : Z) (ts : list thread) :
  quiescent ts ->
  let (c1, ts1) := step_at i c ts in
  let (c2, ts2) := step_at i c1 ts1 in
  c2 + owed_of ts2 = c + owed_of ts /\ quiescent ts2.
Proof.
  revert i c. induction ts as [|t ts IH]; intros i c Hq.
  - destruct i; simpl; auto.
  - inversion Hq as [|? ? Ht Hts]; subst.
    destruct i as [|j]; simpl.
    + pose proof (update_thread c t Ht) as H.
      destruct (step_thread c t) as [c1 t1]. simpl.
      destruct (step_thread c1 t1) as [c2 t2]. destruct H as [H1 H2].
      split; [rewrite !owed_of_cons; lia | now constructor].
    + specialize (IH j c Hts).
      destruct (step_at j c ts) as [c1 ts1]. simpl.
      destruct (step_at j c1 ts1) as [c2 ts2]. destruct IH as [H1 H2].
      split; [rewrite !owed_of_cons; lia | now constructor].
Qed.

Lemma update_machine (i : nat) (m : machine) :
  quiescent (threads m) ->
  count (step i (step i m)) + owed (step i (step i m)) = count m + owed m
  /\ quiescent (threads (step i (step i m))).
Proof.
  intros Hq. pose proof (update_at i (count m) (threads m) Hq) as H.
  unfold step. destruct (step_at i (count m) (threads m)) as [c1 ts1]. simpl.
  destruct (step_at i c1 ts1) as [c2 ts2]. simpl. exact H.
Qed.

(** Updates that do not overlap conserve count plus owed. *)
Lemma serial_conserves (ids : list nat) (m : machine) :
  quiescent (threads m) ->
  count (run (serial ids) m) + owed (run (serial ids) m) = count m + owed m
  /\ quiescent (threads (run (serial ids) m)).
Proof.
  revert m. induction ids as [|i ids IH]; intros m Hq; [now split |].
  change (run (serial (i :: ids)) m) with (run (serial ids) (step i (step i m))).
  destruct (update_machine i m Hq) as [H1 H2].
  destruct (IH _ H2) as [IH1 IH2]. split; [congruence | assumption].
Qed.

Lemma owed_nothing (m : machine) : finished m = true -> owed m = 0.
Proof.
  unfold finished, owed. induction (threads m) as [|t ts IH]; [reflexivity |].
  cbn [forallb]. intros H. apply andb_true_iff in H as [Ht Hts].
  rewrite owed_of_cons, (IH Hts).
  destruct (pending t); [reflexivity | discriminate].
Qed.

Lemma sum_repeat (d : Z) (n : nat) :
  fold_right Z.add 0 (repeat d n) = d * Z.of_nat n.
Proof. induction n as [|n IH]; [simpl; lia |]. cbn [repeat fold_right]. rewrite IH. lia. Qed.

Lemma owed_handlers (hs : nat) :
  owed_of (repeat handler_thread hs) = - Z.of_nat hs.
Proof.
  induction hs as [|hs IH]; [reflexivity |].
  cbn [repeat]. rewrite owed_of_cons, IH.
  unfold handler_thread. cbn [pending fold_right]. lia.
Qed.

Lemma quiescent_handlers (hs : nat) : quiescent (repeat handler_thread hs).
Proof. induction hs; constructor; auto. Qed.

End CounterFacts.

Module CounterClaims.
Import Counter CounterFacts.

(** C9 (as stated, refuted).  The claim says the updates of the shared
    count exclude one another, so that no interleaving of handlers loses
    one.  With the count at 2 and two handlers closing, the schedule in
    which both load before either stores has both handlers inside their
    update at once and ends with the count at 1 instead of 0. *)
Lemma lost_update_possible :
  ~ (forall schedule : list nat,
       let m := run schedule (server_machine 2 0 2) in
       (updating m <= 1)%nat
       /\ (finished m = true -> count m = 2 + owed (server_machine 2 0 2))).
Proof.
  intros H.
  destruct (H [1; 2; 1; 2]%nat) as [_ Hcount].
  specialize (Hcount eq_refl). vm_compute in Hcount. discriminate.
Qed.

(** C9 (amended).  The increment of the accept loop and the decrement of
    each handler are unguarded load-then-store updates.  When updates do not
    overlap (every load is followed at once by the store of the same thread),
    the count plus the updates still owed never changes, so once every thread
    is done the count is the initial one plus the accepts minus the closes. *)
Theorem serial_updates_exact (c : Z) (accepts handlers : nat) (ids : list nat) :
  let m := run (serial ids) (server_machine c accepts handlers) in
  count m + owed m = c + Z.of_nat accepts - Z.of_nat handlers
  /\ (finished m = true -> count m = c + Z.of_nat accepts - Z.of_nat handlers).
Proof.
  intros m.
  assert (quiescent (threads (server_machine c accepts handlers))) as Hq.
  { constructor; [reflexivity | apply quiescent_handlers]. }
  destruct (serial_conserves ids _ Hq) as [Hsum _]. fold m in Hsum.
  assert (owed (server_machine c accepts handlers)
          = Z.of_nat accepts - Z.of_nat handlers) as Howed.
  { unfold owed, server_machine. cbn [threads].
    rewrite owed_of_cons, owed_handlers. unfold accept_thread. cbn [pending].
    rewrite sum_repeat. lia. }
  cbn [count server_machine] in Hsum. rewrite Howed in Hsum.
  split; [lia |].
  intros Hfin. apply owed_nothing in Hfin. lia.
Qed.

End CounterClaims.

(** ** Symbolic execution of the handlers *)

Module Exec.
Import Py FS Sys Server Spec RateFacts.

Lemma skipn_length_app {A} (l evs : list A) : skipn (List.length l) (l ++ evs)%list = evs.
Proof. induction l; simpl; auto. Qed.

Lemma new_events_evolve ib sf clk fl evs (w : world) :
  new_events w (evolve ib sf clk fl evs w) = evs.
Proof. unfold new_events, evolve. cbn [trace]. apply skipn_length_app. Qed.

Lemma after_sends_emit s ev (w : world) sf evs :
  emit ev (with_send_faults s (after_sends sf evs w))
  = after_sends s (evs ++ [ev])%list w.
Proof. unfold emit, with_send_faults, after_sends. simpl. now rewrite app_assoc. Qed.

Lemma after_sends_same (w : world) : after_sends (send_faults w) [] w = w.
Proof. destruct w. unfold after_sends. simpl. now rewrite app_nil_r. Qed.

Lemma none_app p (l1 l2 : list event) : none p l1 -> none p l2 -> none p (l1 ++ l2)%list.
Proof. intros H1 H2. apply Forall_app. now split. Qed.

Lemma stream_none p (evs : list event) :
  (forall e, is_stream e = true -> p e = false) ->
  Forall (fun e => is_stream e = true) evs -> none p evs.
Proof. intros Hp H. eapply Forall_impl; [| exact H]. exact Hp. Qed.

Lemma stream_not_frame e : is_stream e = true -> is_frame e = false.
Proof. now destruct e. Qed.

Lemma stream_not_rate e : is_stream e = true -> is_rate e = false.
Proof. now destruct e. Qed.

Lemma frame_not_stream e : is_frame e = true -> is_stream e = false.
Proof. now destruct e. Qed.

(** The streaming loop ends within its budget, touches only the fault script
    and the trace, and appends [sendall] events only. *)
Lemma send_loop_general (fuel : nat) (bs : Z) (rest : bytes) (n : Z) (w : world) sf0 evs0 :
  (List.length rest < fuel)%nat ->
  Forall (fun e => is_stream e = true) evs0 ->
  exists sf evs,
    exec (send_loop fuel bs rest n) (after_sends sf0 evs0 w) = after_sends sf evs w
    /\ Forall (fun e => is_stream e = true) evs
    /\ run (send_loop fuel bs rest n) (after_sends sf0 evs0 w) <> Diverge.
Proof.
  revert rest n sf0 evs0.
  induction fuel as [|fuel IH]; intros rest n sf0 evs0 Hlt Hev; [lia |].
  cbn [send_loop].
  destruct (file_read bs rest) as [data rest'] eqn:Hread.
  destruct data as [|x data].
  - exists sf0, evs0. unfold exec, run, ret. simpl. repeat split; auto. discriminate.
  - assert (List.length rest' < fuel)%nat as Hlt'.
    { unfold file_read in Hread. destruct (bs <? 0)%Z eqn:Hneg.
      - inversion Hread; subst. simpl in *. lia.
      - inversion Hread as [[Hf Hs]]. rewrite length_skipn.
        assert (List.length (firstn (Z.to_nat bs) rest) <> 0)%nat as Hpos
          by (rewrite Hf; discriminate).
        rewrite length_firstn in Hpos. lia. }
    unfold exec, run, bind, sendall, transmit.
    cbn [send_faults after_sends].
    destruct (next_fault sf0) as [[e|] sf1].
    + eexists _, _. rewrite after_sends_emit. simpl. repeat split.
      * apply Forall_app. split; [assumption | now repeat constructor].
      * discriminate.
    + rewrite after_sends_emit.
      apply IH; [assumption |].
      apply Forall_app. split; [assumption | now repeat constructor].
Qed.

Lemma send_loop_spec (fuel : nat) (bs : Z) (rest : bytes) (n : Z) (w : world) :
  (List.length rest < fuel)%nat ->
  exists sf evs,
    exec (send_loop fuel bs rest n) w = after_sends sf evs w
    /\ Forall (fun e => is_stream e = true) evs
    /\ run (send_loop fuel bs rest n) w <> Diverge.
Proof.
  intros Hlt.
  destruct (send_loop_general fuel bs rest n w (send_faults w) [] Hlt (Forall_nil _))
    as (sf & evs & H1 & H2 & H3).
  rewrite after_sends_same in H1, H3. now exists sf, evs.
Qed.

Ltac unfold_monad :=
  cbv beta delta [bind ret raise diverge try_except try_finally lift_option
                  log print settimeout recv transmit send sendall connect close time
                  decode_ os_path_exists os_path_isfile getsize open_rb listdir
                  open_wb write decrement_active increment_active report_error].

Ltac world_simpl :=
  cbv beta iota zeta delta
    [fs inbox send_faults connect_fault close_fault open_fault clock
     active_connections files trace with_inbox with_send_faults with_clock
     with_active with_files emit after_sends evolve run exec];
  cbn [fst snd].

Ltac sym_loop :=
  match goal with
  | |- context [send_loop ?fu ?bs ?d ?n ?w] =>
      let sf := fresh "sf" in
      let evs := fresh "evs" in
      let Hexec := fresh "Hexec" in
      let Hstream := fresh "Hstream" in
      let Hnd := fresh "Hnd" in
      let r := fresh "r" in
      let w' := fresh "w'" in
      destruct (send_loop_spec fu bs d n w (Nat.lt_succ_diag_r _))
        as (sf & evs & Hexec & Hstream & Hnd);
      unfold exec, run in Hexec, Hnd;
      destruct (send_loop fu bs d n w) as [r w'];
      cbn [fst snd] in Hexec, Hnd; subst w';
      destruct r as [?bytes_sent|?e|]; [ | | exfalso; now apply Hnd ]
  end.

Ltac sym_rate :=
  match goal with
  | |- context [transfer_rate ?s ?d ?w] =>
      let r := fresh "rate" in
      let E := fresh "Erate" in
      let Hok := fresh "Hok" in
      destruct (transfer_rate_ok s d w) as (r & E & Hok); rewrite E
  end.

Ltac sym_prim :=
  match goal with
  | H : next_recv ?n ?s = _ |- context [next_recv ?n ?s] => rewrite H
  | H : resolve ?f ?p = _ |- context [resolve ?f ?p] => rewrite H
  | |- context [next_fault ?s] => destruct (next_fault s) as [[?e|] ?sf]
  | |- context [next_recv ?n ?s] =>
      destruct (next_recv n s) as [[?data|?e] ?ib] eqn:?Hrecv
  | |- context [next_time ?s] => destruct (next_time s) as [?t ?clk]
  | |- context [decode ?d] => destruct (decode d) as [?request|] eqn:?Hdec
  | |- context [resolve ?f ?p] =>
      destruct (resolve f p) as [[?data|?sz ?entries]|] eqn:?Hres
  | |- context [if ?c then _ else _] => destruct c eqn:?Hc
  | |- context [match ?c with Some _ => _ | None => _ end] => destruct c eqn:?Hc
  end.

Ltac sym_step := first [ sym_loop | sym_rate | sym_prim ]; world_simpl.

Ltac close_none :=
  solve
    [ unfold none;
      repeat first
        [ apply Forall_nil
        | apply Forall_cons; [reflexivity |]
        | apply Forall_app; split
        | assumption
        | (eapply Forall_impl; [| eassumption]);
          first [ exact stream_not_frame | exact stream_not_rate ] ] ].

(** The response was [READY] although it was assumed not to be. *)
Ltac was_ready H :=
  exfalso; apply H; f_equal;
  match goal with
  | E : negb (bytes_eqb _ _) = false |- _ =>
      apply negb_false_iff in E; now apply PyFacts.bytes_eqb_eq in E
  end.

(** Everything the claims need to know about one run of [send_file]. *)
Lemma send_file_summary (self : server) (filename ip : str) (w : world) :
  exists ib sf clk evs,
    exec (send_file self filename ip) w = evolve ib sf clk (files w) evs w
    /\ run (send_file self filename ip) w <> Diverge
    /\ none is_frame evs
    /\ (fst (next_recv 1024 (inbox w)) <> inl (b "READY") -> none is_stream evs)
    /\ rate_reported_once ip evs
    /\ (forall e, run (send_file self filename ip) w = Raise e -> none is_rate evs).
Proof.
  destruct w as [f ib sf cf clf opf clk ac fl tr].
  unfold send_file, path_exists. unfold_monad. world_simpl.
  repeat sym_step.
  all: rewrite <- ?app_assoc; cbn [app].
  all: do 4 eexists; split; [reflexivity |].
  all: split; [discriminate |].
  all: split; [close_none |].
  all: split; [intros Hnr; first [close_none | was_ready Hnr] |].
  all: try solve [split; [left; close_none | intros; close_none]].
  all: split; [| intros ? Habs; discriminate Habs].
  all: right.
  all: match goal with
       | |- context [(?a :: ?evs ++ [Log (LogFileSent ?f ?s ?i);
                                     Log (LogTransferRate ?r ?d)])%list] =>
           exists (a :: evs)%list, f, s, r, d, []
       end.
  all: split; [reflexivity |].
  all: split; [close_none |].
  all: split; [close_none |].
  all: split; [close_none | assumption].
Qed.

(** One run of [list_files]. *)
Lemma list_files_summary (self : server) (ip : str) (w : world) :
  exists sf evs,
    exec (list_files self ip) w = after_sends sf evs w
    /\ run (list_files self ip) w <> Diverge
    /\ none is_frame evs
    /\ none is_stream evs
    /\ none is_rate evs.
Proof.
  destruct w as [f ib sf cf clf opf clk ac fl tr].
  unfold list_files. unfold_monad. world_simpl.
  repeat sym_step.
  all: rewrite <- ?app_assoc; cbn [app].
  all: do 2 eexists; split; [reflexivity |].
  all: split; [discriminate |].
  all: repeat split; close_none.
Qed.

Ltac sym_call :=
  match goal with
  | |- context [send_file ?s ?fn ?ip ?w] =>
      let Hexec := fresh "Hexec" in
      let Hnd := fresh "Hnd" in
      let Hframe := fresh "Hframe" in
      let Hstream := fresh "Hstream" in
      let Hrate := fresh "Hrate" in
      let Hraise := fresh "Hraise" in
      let r := fresh "r" in
      let w' := fresh "w'" in
      destruct (send_file_summary s fn ip w)
        as (?ib & ?sf & ?clk & ?evs & Hexec & Hnd & Hframe & Hstream & Hrate & Hraise);
      unfold exec, run in Hexec, Hnd, Hraise;
      destruct (send_file s fn ip w) as [r w'];
      cbn [fst snd] in Hexec, Hnd, Hraise; subst w';
      cbv beta iota delta [inbox files] in Hstream;
      destruct r as [[]|?e|]; [ | | exfalso; now apply Hnd ]
  | |- context [list_files ?s ?ip ?w] =>
      let Hexec := fresh "Hexec" in
      let Hnd := fresh "Hnd" in
      let Hframe := fresh "Hframe" in
      let Hstream := fresh "Hstream" in
      let Hrate := fresh "Hrate" in
      let r := fresh "r" in
      let w' := fresh "w'" in
      destruct (list_files_summary s ip w)
        as (?sf & ?evs & Hexec & Hnd & Hframe & Hstream & Hrate);
      unfold exec, run in Hexec, Hnd;
      destruct (list_files s ip w) as [r w'];
      cbn [fst snd] in Hexec, Hnd; subst w';
      destruct r as [[]|?e|]; [ | | exfalso; now apply Hnd ]
  end.

Ltac sym_handler := first [ sym_call | sym_step ]; world_simpl.

Lemma not_frame_not_close e : is_frame e = false -> is_close e = false.
Proof. now destruct e. Qed.

Lemma rate_reported_once_app ip (evs tail : list event) :
  rate_reported_once ip evs -> none is_rate tail -> none is_stream tail ->
  rate_reported_once ip (evs ++ tail)%list.
Proof.
  intros [Hnone | (pre & f & size & r & d & post & -> & H1 & H2 & H3 & H4)] Hr Hs.
  - left. now apply none_app.
  - right. exists pre, f, size, r, d, (post ++ tail)%list.
    rewrite <- app_assoc. cbn [app].
    split; [reflexivity |]. split; [assumption |].
    split; [now apply none_app |]. split; [now apply none_app | assumption].
Qed.


(** The events between [SetTimeout 60] and the closing pair, read off a
    trace built by successive appends. *)
Ltac body_of t :=
  lazymatch t with
  | (_ ++ [SetTimeout _])%list => constr:(@nil event)
  | (?a ++ ?x)%list => let b := body_of a in constr:((b ++ x)%list)
  end.

Ltac link_recv :=
  repeat match goal with
         | H : next_recv ?n ?s = _, H' : context [next_recv ?n ?s] |- _ =>
             rewrite H in H'; cbn [fst snd] in H'
         end.

Ltac close_handler_none :=
  solve
    [ unfold none in *;
      repeat first
        [ apply Forall_nil
        | apply Forall_cons; [reflexivity |]
        | apply Forall_app; split
        | assumption
        | match goal with
          | Hs : _ -> Forall _ ?evs |- Forall _ ?evs => apply Hs; assumption
          end
        | match goal with
          | Hf : Forall (fun e => is_frame e = false) ?evs
            |- Forall (fun e => is_close e = false) ?evs =>
              eapply Forall_impl; [| exact Hf]; exact not_frame_not_close
          end ] ].

(** One run of [handle_client]: the handler always returns, its trace is
    [SetTimeout 60], a body without [Close], then the closing pair. *)
Lemma handle_client_summary (self : server) (ip : str) (w : world) :
  exists ib sf clk body,
    exec (handle_client self ip) w
    = with_active (active_connections w - 1)
        (evolve ib sf clk (files w)
           (SetTimeout 60 :: body
              ++ [Close; Log (LogConnectionClosed ip (active_connections w - 1))])%list w)
    /\ run (handle_client self ip) w = Ret tt
    /\ none is_close body
    /\ (fst (next_recv 1024 (snd (next_recv 1024 (inbox w)))) <> inl (b "READY") ->
        none is_stream body)
    /\ rate_reported_once ip body.
Proof.
  destruct w as [f ib sf cf clf opf clk ac fl tr].
  unfold handle_client. unfold_monad. world_simpl.
  repeat sym_handler.
  all: link_recv.
  all: match goal with
       | |- context [mkWorld _ _ _ _ _ _ _ _ _ ((?a ++ [Close]) ++ [_])%list] =>
           let bd := body_of a in
           eexists _, _, _, bd
       end.
  all: split; [rewrite <- ?app_assoc; cbn [app]; reflexivity |].
  all: split; [reflexivity |].
  all: cbn [app].
  all: split; [close_handler_none |].
  all: split; [intros Hnr; close_handler_none |].
  all: try solve [left; close_handler_none].
  all: try assumption.
  all: try solve [apply rate_reported_once_app; [assumption | close_handler_none ..]].
Qed.

End Exec.

(** ** The connection handler *)

Module HandlerClaims.
Import Py FS Sys Server Spec Exec Examples.

Lemma new_events_with_active a ib sf clk fl evs (w : world) :
  new_events w (with_active a (evolve ib sf clk fl evs w)) = evs.
Proof. unfold new_events, with_active, evolve. cbn [trace]. apply skipn_length_app. Qed.

Lemma filter_none p (evs : list event) : none p evs -> filter p evs = [].
Proof.
  induction 1 as [|e evs He _ IH]; [reflexivity |].
  cbn [filter]. now rewrite He.
Qed.

Lemma handler_events_shape (self : server) (ip : str) (w : world) :
  exists body,
    handler_events self ip w
    = (SetTimeout 60 :: body
         ++ [Close; Log (LogConnectionClosed ip (active_connections w - 1))])%list
    /\ run (handle_client self ip) w = Ret tt
    /\ active_connections (exec (handle_client self ip) w) = active_connections w - 1
    /\ none is_close body
    /\ (fst (next_recv 1024 (snd (next_recv 1024 (inbox w)))) <> inl (b "READY") ->
        none is_stream body)
    /\ rate_reported_once ip body.
Proof.
  destruct (handle_client_summary self ip w)
    as (ib & sf & clk & body & Hexec & Hrun & Hclose & Hstream & Hrate).
  exists body. unfold handler_events. rewrite Hexec, new_events_with_active.
  repeat split; assumption.
Qed.

(** C5.  Whatever the peer and the transport do, the handler returns, closes
    the connection exactly once and leaves the active-connection count one
    lower; and when the reply to the size announcement is anything but the
    five bytes READY (an empty read and a failed read included), no file
    chunk is handed to [sendall]. *)
Theorem handler_releases_once (self : server) (ip : str) (w : world) :
  (run (handle_client self ip) w = Ret tt
   /\ count_close (handler_events self ip w) = 1%nat
   /\ active_connections (exec (handle_client self ip) w) = active_connections w - 1)
  /\ (fst (next_recv 1024 (snd (next_recv 1024 (inbox w)))) <> inl (b "READY") ->
      none is_stream (handler_events self ip w)).
Proof.
  destruct (handler_events_shape self ip w)
    as (body & Hev & Hrun & Hact & Hclose & Hstream & _).
  rewrite Hev. split; [split; [assumption | split; [| assumption]] |].
  - unfold count_close. cbn [filter is_close].
    rewrite filter_app, (filter_none _ _ Hclose). reflexivity.
  - intros Hnr. specialize (Hstream Hnr).
    constructor; [reflexivity |].
    apply none_app; [assumption | now repeat constructor].
Qed.

(** A client that asks for [a.txt] and hangs up after the size announcement:
    nothing is streamed. *)
Lemma handler_releases_once_witness :
  none is_stream
    (handler_events (serving "/srv/pub" 8192) peer
       (world_of [RecvData (b "GET:a.txt"); RecvData []])).
Proof.
  apply (proj2 (handler_releases_once (serving "/srv/pub" 8192) peer
                  (world_of [RecvData (b "GET:a.txt"); RecvData []]))).
  vm_compute. discriminate.
Defined.

Lemma not_frame_not_invalid e : is_frame e = false -> is_invalid e = false.
Proof.
  intros H. destruct e as [| | | | | | |l|]; try reflexivity.
  destruct l; first [reflexivity | discriminate H].
Qed.

Ltac events_now :=
  unfold handler_events, new_events; world_simpl;
  rewrite <- ?app_assoc; rewrite skipn_length_app; cbn [app].

(** C6 (as stated, refuted).  The claim says a first read of zero bytes
    takes the handler to the close without any response.  A peer that
    connects and shuts down gets an answer all the same: the empty request
    falls into the final [else] branch. *)
Lemma empty_read_is_answered :
  attempted (handler_events (serving "/srv/pub" 8192) peer (world_of [RecvData []])) <> [].
Proof. vm_compute. discriminate. Qed.

(** C6 (amended).  When the first read fails (the 60 second timeout
    included) the handler logs the error and closes without sending
    anything.  Every request that decodes and is neither LIST nor starts with
    GET: (the empty request of a zero-byte read included) is logged as
    invalid and answered with exactly ERROR:Invalid request; a LIST request
    or one that starts with GET: never reaches that branch. *)
Theorem invalid_request_answer (self : server) (ip : str) (w : world) :
  (forall e rest,
      next_recv 1024 (inbox w) = (inr e, rest) ->
      handler_events self ip w
      = [SetTimeout 60; Log (LogHandlerError ip e); Close;
         Log (LogConnectionClosed ip (active_connections w - 1))])
  /\ (forall raw rest request,
         next_recv 1024 (inbox w) = (inl raw, rest) ->
         decode raw = Some request ->
         startswith request "GET:" = false ->
         String.eqb request "LIST" = false ->
         attempted (handler_events self ip w) = [b "ERROR:Invalid request"]
         /\ In (Log (LogInvalidRequest ip request)) (handler_events self ip w))
  /\ (forall raw rest request,
         next_recv 1024 (inbox w) = (inl raw, rest) ->
         decode raw = Some request ->
         startswith request "GET:" = true \/ request = "LIST" ->
         none is_invalid (handler_events self ip w)).
Proof.
  destruct w as [f ib sf cf clf opf clk ac fl tr].
  cbn [inbox active_connections].
  split; [| split].
  - intros e rest Hrecv.
    unfold handler_events, handle_client. unfold_monad. world_simpl.
    rewrite Hrecv. world_simpl.
    destruct clf; world_simpl; events_now; reflexivity.
  - intros raw rest request Hrecv Hdec Hget Hlist.
    unfold handler_events, handle_client. unfold_monad. world_simpl.
    rewrite Hrecv. world_simpl. rewrite Hdec. world_simpl.
    rewrite Hget, Hlist. world_simpl.
    destruct (next_fault sf) as [[e|] sf']; destruct clf; world_simpl.
    all: unfold new_events; world_simpl.
    all: rewrite <- ?app_assoc; rewrite skipn_length_app; cbn [app attempted].
    all: split; [reflexivity | cbn [In]; auto].
  - intros raw rest request Hrecv Hdec Hreq.
    unfold handler_events, handle_client. unfold_monad. world_simpl.
    rewrite Hrecv. world_simpl. rewrite Hdec. world_simpl.
    destruct Hreq as [Hget | ->].
    + rewrite Hget. repeat sym_handler.
      all: unfold new_events; world_simpl.
      all: rewrite <- ?app_assoc; rewrite skipn_length_app; cbn [app].
      all: unfold none in *.
      all: repeat first
             [ apply Forall_nil
             | apply Forall_cons; [reflexivity |]
             | apply Forall_app; split
             | (eapply Forall_impl; [| exact Hframe]); exact not_frame_not_invalid ].
    + change (startswith "LIST" "GET:") with false. cbv iota.
      change (String.eqb "LIST" "LIST") with true. cbv iota.
      repeat sym_handler.
      all: unfold new_events; world_simpl.
      all: rewrite <- ?app_assoc; rewrite skipn_length_app; cbn [app].
      all: unfold none in *.
      all: repeat first
             [ apply Forall_nil
             | apply Forall_cons; [reflexivity |]
             | apply Forall_app; split
             | (eapply Forall_impl; [| exact Hframe]); exact not_frame_not_invalid ].
Qed.

(** The empty read: the peer shut down without sending a request. *)
Lemma invalid_request_answer_witness :
  attempted (handler_events (serving "/srv/pub" 8192) peer (world_of [RecvData []]))
  = [b "ERROR:Invalid request"]
  /\ In (Log (LogInvalidRequest peer EmptyString))
        (handler_events (serving "/srv/pub" 8192) peer (world_of [RecvData []])).
Proof.
  apply (proj1 (proj2 (invalid_request_answer (serving "/srv/pub" 8192) peer
                         (world_of [RecvData []])))
           [] [] EmptyString); reflexivity.
Defined.


End HandlerClaims.

(** ** Symbolic execution of the client *)

Module ClientExec.
Import Py FS Sys Client Spec RateFacts Exec.


Lemma evolve_emit ev ib sf clk fl evs (w : world) :
  emit ev (evolve ib sf clk fl evs w) = evolve ib sf clk fl (evs ++ [ev])%list w.
Proof. unfold emit, evolve. simpl. now rewrite app_assoc. Qed.

Lemma evolve_same (w : world) :
  evolve (inbox w) (send_faults w) (clock w) (files w) [] w = w.
Proof. destruct w. unfold evolve. simpl. now rewrite app_nil_r. Qed.

(** The receive loop ends within its budget, touches the peer script, the
    destination file and the trace, and prints progress lines only. *)
Lemma recv_loop_general (fuel : nat) (save : str) (size br : Z) (w : world)
  ib0 fl0 evs0 :
  (Z.to_nat (size - br) < fuel)%nat ->
  Forall (fun e => is_progress e = true) evs0 ->
  exists ib fl evs,
    exec (recv_loop fuel save size br) (evolve ib0 (send_faults w) (clock w) fl0 evs0 w)
    = evolve ib (send_faults w) (clock w) fl evs w
    /\ Forall (fun e => is_progress e = true) evs
    /\ run (recv_loop fuel save size br) (evolve ib0 (send_faults w) (clock w) fl0 evs0 w)
       <> Diverge.
Proof.
  revert br ib0 fl0 evs0.
  induction fuel as [|fuel IH]; intros br ib0 fl0 evs0 Hlt Hev; [lia |].
  cbn [recv_loop].
  destruct (br <? size)%Z eqn:Hguard.
  - apply Z.ltb_lt in Hguard.
    unfold exec, run, bind, recv. cbn [inbox evolve].
    destruct (next_recv 8192 ib0) as [[data|e] ib1].
    + destruct data as [|x data].
      * exists ib1, fl0, evs0. unfold ret, with_inbox. cbn. repeat split; auto. discriminate.
      * unfold write, progress_bar, truediv, bind, print, ret, raise, with_inbox, with_files.
        cbn [fst snd fs inbox send_faults connect_fault close_fault open_fault clock
             active_connections files trace].
        destruct (Qeq_bool (inject_Z size) 0).
        -- eexists _, _, evs0. cbn. repeat split; auto. discriminate.
        -- cbn [fst snd].
           match goal with
           | |- context [emit ?ev ?w0] =>
               change (emit ev w0) with
                 (emit ev (evolve ib1 (send_faults w) (clock w)
                             (store save (fun d => (d ++ x :: data)%list) fl0) evs0 w))
           end.
           rewrite evolve_emit.
           apply IH.
           ++ unfold len. cbn [List.length]. lia.
           ++ apply Forall_app. split; [assumption | now repeat constructor].
    + exists ib1, fl0, evs0. unfold with_inbox. cbn. repeat split; auto. discriminate.
  - exists ib0, fl0, evs0. unfold exec, run, ret. cbn. repeat split; auto. discriminate.
Qed.

Lemma recv_loop_spec (fuel : nat) (save : str) (size br : Z) (w : world) :
  (Z.to_nat (size - br) < fuel)%nat ->
  exists ib fl evs,
    exec (recv_loop fuel save size br) w
    = evolve ib (send_faults w) (clock w) fl evs w
    /\ Forall (fun e => is_progress e = true) evs
    /\ run (recv_loop fuel save size br) w <> Diverge.
Proof.
  intros Hlt.
  destruct (recv_loop_general fuel save size br w (inbox w) (files w) [] Hlt (Forall_nil _))
    as (ib & fl & evs & H1 & H2 & H3).
  rewrite evolve_same in H1, H3. now exists ib, fl, evs.
Qed.

Lemma report_spec (e : exn) (w : world) :
  exists o, report e w = (Ret tt, emit (Print o) w) /\ is_out_rate (Print o) = false.
Proof. destruct e; eexists; split; reflexivity. Qed.

Ltac sym_recv_loop :=
  match goal with
  | |- context [recv_loop (S (Z.to_nat ?size)) ?save ?size 0 ?w] =>
      let Hexec := fresh "Hexec" in
      let Hprog := fresh "Hprog" in
      let Hnd := fresh "Hnd" in
      let r := fresh "r" in
      let w' := fresh "w'" in
      let Hfuel := fresh "Hfuel" in
      assert (Z.to_nat (size - 0) < S (Z.to_nat size))%nat as Hfuel
        by (rewrite Z.sub_0_r; apply Nat.lt_succ_diag_r);
      destruct (recv_loop_spec (S (Z.to_nat size)) save size 0 w Hfuel)
        as (?ib & ?fl & ?evs & Hexec & Hprog & Hnd);
      clear Hfuel;
      unfold exec, run in Hexec, Hnd;
      destruct (recv_loop (S (Z.to_nat size)) save size 0 w) as [r w'];
      cbn [fst snd] in Hexec, Hnd; subst w';
      destruct r as [?received|?e|]; [ | | exfalso; now apply Hnd ]
  end.

Ltac sym_report :=
  match goal with
  | |- context [report ?e ?w] =>
      let o := fresh "o" in
      let E := fresh "Ereport" in
      let Ho := fresh "Ho" in
      destruct (report_spec e w) as (o & E & Ho); rewrite E
  end.

Ltac sym_client := first [ sym_recv_loop | sym_report | sym_step ]; world_simpl.




End ClientExec.

(** ** Throughput *)

Module ThroughputClaims.
Import Py FS Sys Spec RateFacts Examples.



End ThroughputClaims.

(** ** The file tree *)

Module FSFacts.
Import Py FS PyFacts Spec.







Lemma endswith_inv (s : str) (c : ascii) :
  endswith s c = true -> exists s', s = s' ++ String c EmptyString.
Proof.
  unfold endswith. induction s as [|a s IH]; cbn [last_char]; [discriminate |].
  destruct s as [|a' s].
  - intros H. apply Ascii.eqb_eq in H. subst. now exists EmptyString.
  - intros H. destruct (IH H) as [s' Hs']. exists (String a s'). cbn. now rewrite <- Hs'.
Qed.




End FSFacts.

(** ** The client *)

Module ClientClaims.
Import Py FS Sys Client Spec Exec ClientExec Examples.

Lemma content_store_new (name : str) (l : list (str * bytes)) :
  content name (store name (fun _ => []) l) = Some [].
Proof.
  induction l as [|[n d] l IH]; cbn [store content].
  - now rewrite String.eqb_refl.
  - destruct (String.eqb n name) eqn:E; cbn [content]; rewrite E; auto.
Qed.

(** C10.  When the server announces [SIZE:0] (and the connection, the two
    sends and the creation of the destination succeed), [request_file]
    returns [True] and reports success, the destination exists and is empty,
    no further [recv] is made (the loop guard is false at once), and no
    progress line is printed: [progress_bar], whose division raises for a
    total of 0, is never called. *)
Theorem zero_byte_download (addr : str) (port : Z) (filename : str)
  (save_as : option str) (w : world) (rest : list recv_ev) :
  connect_fault w = None ->
  close_fault w = None ->
  fst (next_fault (send_faults w)) = None ->
  fst (next_fault (snd (next_fault (send_faults w)))) = None ->
  next_recv 1024 (inbox w) = (inl (b "SIZE:0"), rest) ->
  open_fault w (destination filename save_as) = None ->
  let w' := exec (request_file addr port filename save_as) w in
  run (request_file addr port filename save_as) w = Ret true
  /\ content (destination filename save_as) (files w') = Some []
  /\ inbox w' = rest
  /\ none is_progress (request_events addr port filename save_as w)
  /\ In (Print (OutReceived (destination filename save_as)))
        (request_events addr port filename save_as w)
  /\ (forall current w0, run (progress_bar current 0) w0 = Raise ZeroDivisionError).
Proof.
  destruct w as [f ib sf cf clf opf clk ac fl tr].
  cbn [connect_fault close_fault send_faults inbox open_fault].
  intros -> -> Hs1 Hs2 Hrecv Hopen.
  destruct (next_fault sf) as [o1 sf1] eqn:Hsf0. cbn [fst snd] in Hs1, Hs2. subst o1.
  destruct (next_fault sf1) as [o2 sf2] eqn:Hsf1. cbn [fst] in Hs2. subst o2.
  unfold request_events, request_file.
  generalize dependent (destination filename save_as). intros dest Hopen.
  unfold_monad. world_simpl.
  rewrite Hsf0. world_simpl.
  rewrite Hrecv. world_simpl.
  change (decode (b "SIZE:0")) with (Some "SIZE:0"). cbv beta iota.
  change (startswith "SIZE:0" "ERROR:") with false.
  change (startswith "SIZE:0" "SIZE:") with true.
  change (int (drop 5 "SIZE:0")) with (Some 0%Z). cbv beta iota. world_simpl.
  rewrite Hsf1. world_simpl.
  destruct (next_time clk) as [t0 clk0]. world_simpl.
  rewrite Hopen. world_simpl.
  change (recv_loop (S (Z.to_nat 0)) dest 0 0) with (@ret Z 0). unfold ret. world_simpl.
  destruct (next_time clk0) as [t1 clk1]. world_simpl.
  sym_rate. world_simpl.
  rewrite <- ?app_assoc. rewrite skipn_length_app. cbn [app].
  split; [reflexivity |].
  split; [apply content_store_new |].
  split; [reflexivity |].
  split; [repeat constructor |].
  split; [cbn [In]; auto 10 |].
  intros current w0. reflexivity.
Qed.

(** Downloading the empty file [zero.bin]. *)
Lemma zero_byte_download_witness :
  run (request_file "localhost" 12345 "zero.bin" None) (world_of [RecvData (b "SIZE:0")])
  = Ret true.
Proof.
  refine (proj1 (zero_byte_download "localhost" 12345 "zero.bin" None
                   (world_of [RecvData (b "SIZE:0")]) [] _ _ _ _ _ _));
    vm_compute; reflexivity.
Defined.

(** C3 (the code falls short of the claim).  The server announces 10
    bytes, 4 arrive, then the stream ends.  [request_file] leaves the loop
    through its [break], prints the success line and returns [True]; the
    destination holds the 4 bytes. *)
Lemma truncated_download_reported_complete :
  let w := world_of [RecvData (b "SIZE:10"); RecvData (b "abcd"); RecvData []] in
  let w' := exec (request_file "localhost" 12345 "a.txt" None) w in
  run (request_file "localhost" 12345 "a.txt" None) w = Ret true
  /\ content "a.txt" (files w') = Some (b "abcd")
  /\ existsb is_success (request_events "localhost" 12345 "a.txt" None w) = true.
Proof. vm_compute. repeat split; reflexivity. Qed.

End ClientClaims.

(** ** Listings *)

Module ListingClaims.
Import Py FS Sys Spec PyFacts FSFacts Exec Examples.


(** The enumeration loop prints one entry per name, in order. *)
Lemma print_entries_events (names : list str) (i : Z) (w : world) :
  exists evs,
    Client.print_entries i names w = (Ret tt, after_sends (send_faults w) evs w)
    /\ Client.shown_entries evs = names.
Proof.
  revert i w. induction names as [|n names IH]; intros i w.
  - exists []. cbn [Client.print_entries]. unfold ret.
    now rewrite after_sends_same.
  - cbn [Client.print_entries]. unfold bind, print.
    destruct (IH (i + 1)%Z (emit (Print (OutEntry i n)) w)) as (evs & E & Hs).
    rewrite E. exists (Print (OutEntry i n) :: evs). split.
    + f_equal. destruct w. unfold after_sends, emit. cbn.
      now rewrite <- app_assoc.
    + cbn [Client.shown_entries]. now rewrite Hs.
Qed.



End ListingClaims.

(** ** Downloads *)

Module TransferClaims.
Import Py FS Sys Server Spec PyFacts Exec Examples.

Lemma next_fault_quiet (sf : list (option exn)) :
  Forall (eq None) sf ->
  fst (next_fault sf) = None /\ Forall (eq None) (snd (next_fault sf)).
Proof.
  intros H. destruct H as [|o sf Ho Hsf]; cbn; [now split |].
  split; [now symmetry | assumption].
Qed.

Lemma payload_chunks_app (a c : list event) :
  payload_chunks (a ++ c)%list = (payload_chunks a ++ payload_chunks c)%list.
Proof.
  induction a as [|e a IH]; [reflexivity |].
  destruct e; cbn [app payload_chunks]; try exact IH. now rewrite IH.
Qed.

Lemma sent_messages_app (a c : list event) :
  sent_messages (a ++ c)%list = (sent_messages a ++ sent_messages c)%list.
Proof.
  induction a as [|e a IH]; [reflexivity |].
  destruct e; cbn [app sent_messages]; try exact IH; now rewrite IH.
Qed.

Lemma payload_chunks_sendall (chunks : list bytes) :
  payload_chunks (map SendAll chunks) = chunks.
Proof. induction chunks as [|c l IH]; [reflexivity |]. cbn. now rewrite IH. Qed.

Lemma sent_messages_sendall (chunks : list bytes) :
  sent_messages (map SendAll chunks) = chunks.
Proof. induction chunks as [|c l IH]; [reflexivity |]. cbn. now rewrite IH. Qed.

(** With a transport that accepts everything and a positive chunk size, the
    streaming loop sends the whole of what is left, in chunks of at most the
    chunk size, and counts every byte. *)
Lemma send_loop_faultless (fuel : nat) (bs : Z) (rest : bytes) (n : Z) (w : world)
  sf0 evs0 :
  0 < bs ->
  (List.length rest < fuel)%nat ->
  Forall (eq None) sf0 ->
  exists chunks sf,
    send_loop fuel bs rest n (after_sends sf0 evs0 w)
    = (Ret (n + len rest), after_sends sf (evs0 ++ map SendAll chunks)%list w)
    /\ List.concat chunks = rest
    /\ Forall (fun c => 0 < len c <= bs) chunks
    /\ Forall (eq None) sf.
Proof.
  intros Hbs. revert rest n sf0 evs0.
  induction fuel as [|fuel IH]; intros rest n sf0 evs0 Hlt Hq; [lia |].
  cbn [send_loop]. unfold file_read.
  assert ((bs <? 0)%Z = false) as Hneg by (apply Z.ltb_ge; lia). rewrite Hneg.
  destruct (firstn (Z.to_nat bs) rest) as [|x data] eqn:Hfirst.
  - assert (rest = []) as ->.
    { destruct rest as [|y rest]; [reflexivity |].
      destruct (Z.to_nat bs) eqn:E; [lia | discriminate Hfirst]. }
    exists [], sf0. unfold ret, len. cbn. rewrite app_nil_r, Z.add_0_r. auto.
  - unfold bind, sendall, transmit. cbn [send_faults after_sends].
    destruct (next_fault_quiet sf0 Hq) as [Hnone Hq'].
    destruct (next_fault sf0) as [o sf1]. cbn [fst snd] in Hnone, Hq'. subst o.
    rewrite after_sends_emit.
    assert (List.length (skipn (Z.to_nat bs) rest) < fuel)%nat as Hlt'.
    { rewrite length_skipn.
      assert (List.length (firstn (Z.to_nat bs) rest) <> 0)%nat as Hpos
        by (rewrite Hfirst; discriminate).
      rewrite length_firstn in Hpos. lia. }
    destruct (IH (skipn (Z.to_nat bs) rest) (n + len (x :: data))
                 sf1 (evs0 ++ [SendAll (x :: data)])%list Hlt' Hq')
      as (chunks & sf & E & Hcat & Hsz & Hsf).
    exists ((x :: data) :: chunks), sf. rewrite E. split; [| split; [| split]].
    + f_equal.
      * f_equal. rewrite <- (firstn_skipn (Z.to_nat bs) rest) at 2.
        rewrite Hfirst. unfold len. rewrite length_app. lia.
      * now rewrite <- app_assoc.
    + cbn [List.concat]. rewrite Hcat, <- Hfirst. apply firstn_skipn.
    + constructor; [| assumption].
      rewrite <- Hfirst. unfold len. rewrite length_firstn.
      assert (List.length (firstn (Z.to_nat bs) rest) <> 0)%nat as Hpos
        by (rewrite Hfirst; discriminate).
      rewrite length_firstn in Hpos. lia.
    + assumption.
Qed.

(** X1.  A GET for a name that passes the prefix test and resolves to a
    regular file, followed by READY, over a transport that accepts
    everything and with a positive chunk size: the server announces the
    file's size and then streams chunks of at most the chunk size whose
    concatenation is the file's contents. *)
Theorem get_ready_streams_file (self : server) (ip filename : str) (w : world)
  (data : bytes) (rest1 rest2 : list recv_ev) :
  0 < buffer_size self ->
  next_recv 1024 (inbox w) = (inl (encode ("GET:" ++ filename)), rest1) ->
  next_recv 1024 rest1 = (inl (b "READY"), rest2) ->
  utf8_valid (encode ("GET:" ++ filename)) = true ->
  startswith (posixpath.normpath (posixpath.join (directory self) filename))
             (posixpath.normpath (directory self)) = true ->
  resolve (fs w) (posixpath.join (directory self) filename) = Some (File data) ->
  Forall (eq None) (send_faults w) ->
  exists chunks,
    sent_messages (handler_events self ip w)
    = encode ("SIZE:" ++ str_of_int (len data)) :: chunks
    /\ payload_chunks (handler_events self ip w) = chunks
    /\ List.concat chunks = data
    /\ Forall (fun c => 0 < len c <= buffer_size self) chunks.
Proof.
  destruct w as [f ib sf cf clf opf clk ac fl tr].
  cbn [inbox fs send_faults].
  intros Hbs Hrecv1 Hrecv2 Hutf Hprefix Hres Hq.
  unfold handler_events, handle_client, send_file.
  unfold_monad. unfold path_exists. world_simpl.
  rewrite Hrecv1. world_simpl.
  rewrite (decode_encode _ Hutf). cbv beta iota.
  rewrite (startswith_app "GET:").
  change 4%nat with (String.length "GET:"). rewrite drop_app.
  rewrite Hprefix. cbn [negb]. world_simpl.
  rewrite Hres. cbn [negb]. world_simpl.
  rewrite Hres. world_simpl.
  destruct (next_fault_quiet sf Hq) as [Hnone Hq1].
  destruct (next_fault sf) as [o sf1]. cbn [fst snd] in Hnone, Hq1. subst o.
  world_simpl.
  rewrite Hrecv2. world_simpl.
  change (bytes_eqb (b "READY") (b "READY")) with true. cbn [negb]. world_simpl.
  destruct (next_time clk) as [t0 clk0]. world_simpl.
  rewrite Hres. world_simpl.
  match goal with
  | |- context [send_loop ?fu ?bs ?d ?n (mkWorld ?a1 ?a2 ?a3 ?a4 ?a5 ?a6 ?a7 ?a8 ?a9 (?tr0 ++ ?ev0)%list)] =>
      destruct (send_loop_faultless fu bs d n
                  (mkWorld a1 a2 sf a4 a5 a6 a7 a8 a9 tr0) a3 ev0 Hbs
                  (Nat.lt_succ_diag_r _) Hq1)
        as (chunks & sf2 & Eloop & Hcat & Hsz & Hq2);
      unfold after_sends in Eloop; cbn [fs inbox send_faults connect_fault close_fault
        open_fault clock active_connections files trace] in Eloop;
      rewrite Eloop
  end.
  world_simpl.
  destruct (next_time clk0) as [t1 clk1]. world_simpl.
  sym_rate. world_simpl.
  exists chunks.
  assert (forall tail : list event,
             sent_messages tail = [] -> payload_chunks tail = [] ->
             sent_messages
               (SetTimeout 60 :: Send (encode ("SIZE:" ++ str_of_int (len data)))
                  :: (map SendAll chunks ++ tail)%list)
             = encode ("SIZE:" ++ str_of_int (len data)) :: chunks
             /\ payload_chunks
                  (SetTimeout 60 :: Send (encode ("SIZE:" ++ str_of_int (len data)))
                     :: (map SendAll chunks ++ tail)%list)
                = chunks) as Hshape.
  { intros tail H1 H2. cbn [sent_messages payload_chunks].
    rewrite sent_messages_app, payload_chunks_app, H1, H2,
      sent_messages_sendall, payload_chunks_sendall, !app_nil_r. now split. }
  destruct clf; world_simpl.
  all: unfold new_events; world_simpl.
  all: rewrite <- ?app_assoc; rewrite skipn_length_app; cbn [app].
  all: match goal with
       | |- context [(map SendAll _ ++ ?tail)%list] =>
           destruct (Hshape tail eq_refl eq_refl) as [Hs Hp]
       end.
  all: rewrite Hs, Hp; auto.
Qed.

(** [a.txt] from [/srv/pub], four bytes at a time. *)
Lemma get_ready_streams_file_witness :
  exists chunks,
    sent_messages
      (handler_events (serving "/srv/pub" 4) peer
         (world_of [RecvData (b "GET:a.txt"); RecvData (b "READY")]))
    = b "SIZE:11" :: chunks
    /\ List.concat chunks = b "hello world".
Proof.
  destruct (get_ready_streams_file (serving "/srv/pub" 4) peer "a.txt"
              (world_of [RecvData (b "GET:a.txt"); RecvData (b "READY")])
              (b "hello world") [RecvData (b "READY")] [])
    as (chunks & Hs & _ & Hc & _); try reflexivity; [constructor |].
  exists chunks. now split.
Defined.

(** X2.  A GET for a name that passes the prefix test and resolves to
    nothing is answered with the not-found error alone: no size, no
    payload. *)
Theorem missing_file_not_found (self : server) (ip filename : str) (w : world)
  (rest : list recv_ev) :
  next_recv 1024 (inbox w) = (inl (encode ("GET:" ++ filename)), rest) ->
  utf8_valid (encode ("GET:" ++ filename)) = true ->
  startswith (posixpath.normpath (posixpath.join (directory self) filename))
             (posixpath.normpath (directory self)) = true ->
  resolve (fs w) (posixpath.join (directory self) filename) = None ->
  fst (next_fault (send_faults w)) = None ->
  sent_messages (handler_events self ip w) = [b "ERROR:File not found"]
  /\ payload_chunks (handler_events self ip w) = [].
Proof.
  destruct w as [f ib sf cf clf opf clk ac fl tr].
  cbn [inbox fs send_faults].
  intros Hrecv Hutf Hprefix Hres Hok.
  unfold handler_events, handle_client, send_file.
  unfold_monad. unfold path_exists. world_simpl.
  rewrite Hrecv. world_simpl.
  rewrite (decode_encode _ Hutf). cbv beta iota.
  rewrite (startswith_app "GET:").
  change 4%nat with (String.length "GET:"). rewrite drop_app.
  rewrite Hprefix. cbn [negb]. world_simpl.
  rewrite Hres. cbn [negb]. world_simpl.
  destruct (next_fault sf) as [o sf1]. cbn [fst] in Hok. subst o. world_simpl.
  destruct clf; world_simpl.
  all: unfold new_events; world_simpl.
  all: rewrite <- ?app_assoc; rewrite skipn_length_app; cbn [app].
  all: split; reflexivity.
Qed.

Lemma missing_file_not_found_witness :
  sent_messages
    (handler_events (serving "/srv/pub" 8192) peer
       (world_of [RecvData (b "GET:nope.txt"); RecvData (b "READY")]))
  = [b "ERROR:File not found"].
Proof.
  refine (proj1 (missing_file_not_found (serving "/srv/pub" 8192) peer "nope.txt"
                   (world_of [RecvData (b "GET:nope.txt"); RecvData (b "READY")])
                   [RecvData (b "READY")] _ _ _ _ _));
    vm_compute; reflexivity.
Defined.

(** X3.  A GET for a name whose normalized path does not start with the
    normalized served directory is logged as a traversal attempt and
    answered with the access-denied error; the file system is not consulted
    and nothing else is handed to the transport. *)
Theorem failed_prefix_denied (self : server) (ip filename : str) (w : world)
  (rest : list recv_ev) :
  next_recv 1024 (inbox w) = (inl (encode ("GET:" ++ filename)), rest) ->
  utf8_valid (encode ("GET:" ++ filename)) = true ->
  startswith (posixpath.normpath (posixpath.join (directory self) filename))
             (posixpath.normpath (directory self)) = false ->
  attempted (handler_events self ip w) = [b "ERROR:Access denied"]
  /\ In (Log (LogTraversal ip filename)) (handler_events self ip w).
Proof.
  destruct w as [f ib sf cf clf opf clk ac fl tr].
  cbn [inbox].
  intros Hrecv Hutf Hprefix.
  unfold handler_events, handle_client, send_file.
  unfold_monad. world_simpl.
  rewrite Hrecv. world_simpl.
  rewrite (decode_encode _ Hutf). cbv beta iota.
  rewrite (startswith_app "GET:").
  change 4%nat with (String.length "GET:"). rewrite drop_app.
  rewrite Hprefix. cbn [negb]. world_simpl.
  destruct (next_fault sf) as [[e|] sf1]; destruct clf; world_simpl.
  all: unfold new_events; world_simpl.
  all: rewrite <- ?app_assoc; rewrite skipn_length_app; cbn [app attempted].
  all: split; [reflexivity | cbn [In]; auto].
Qed.

Lemma failed_prefix_denied_witness :
  attempted
    (handler_events (serving "/srv/pub" 8192) peer
       (world_of [RecvData (b "GET:/etc/passwd")]))
  = [b "ERROR:Access denied"].
Proof.
  refine (proj1 (failed_prefix_denied (serving "/srv/pub" 8192) peer "/etc/passwd"
                   (world_of [RecvData (b "GET:/etc/passwd")]) [] _ _ _));
    vm_compute; reflexivity.
Defined.

(** C1 (the code falls short of the claim).  With the default served
    directory [.], [a.txt] is a regular file under the served root, yet
    [normpath] turns [./a.txt] into [a.txt], which does not start with [.]:
    the request is logged as a traversal attempt and refused, and neither a
    size nor a byte of the file is sent. *)
Lemma default_root_denies_regular_file :
  let w := world_of [RecvData (b "GET:a.txt"); RecvData (b "READY")] in
  resolve (fs w) (posixpath.join (directory default_server) "a.txt")
  = Some (File (b "hello world"))
  /\ under_root (directory default_server)
                (posixpath.join (directory default_server) "a.txt") = true
  /\ handler_events default_server peer w
     = [SetTimeout 60; Log (LogTraversal peer "a.txt");
        Send (b "ERROR:Access denied"); Close; Log (LogConnectionClosed peer 0)].
Proof. vm_compute. repeat split; reflexivity. Qed.

(** C2 (the code falls short of the claim).  The check compares strings,
    not path components.  Serving [/srv/pub], the name
    [../pub_private/key.pem] normalizes to [/srv/pub_private/key.pem], which
    starts with [/srv/pub]; serving the default [.], the name
    [../secret.txt] normalizes to [../secret.txt], which starts with [.].
    Both lie outside the served root and both files are sent in full. *)
Lemma traversal_is_served :
  (under_root "/srv/pub" (posixpath.join "/srv/pub" "../pub_private/key.pem") = false
   /\ sent_messages
        (handler_events (serving "/srv/pub" 8192) peer
           (world_of [RecvData (b "GET:../pub_private/key.pem"); RecvData (b "READY")]))
      = [b "SIZE:6"; b "SECRET"])
  /\ (under_root "." (posixpath.join "." "../secret.txt") = false
      /\ sent_messages
           (handler_events default_server peer
              (world_of [RecvData (b "GET:../secret.txt"); RecvData (b "READY")]))
         = [b "SIZE:3"; b "TOP"]).
Proof. vm_compute. repeat split; reflexivity. Qed.

(** C4 (the code falls short of the claim).  [send_file] tests
    [os.path.exists], which a directory passes.  Asked for the subdirectory
    [sub], the server announces the directory's own size; only when the
    client answers READY does opening it fail, and the error that follows is
    not the not-found response. *)
Lemma directory_gets_size :
  let w := world_of [RecvData (b "GET:sub"); RecvData (b "READY")] in
  isfile (fs w) (posixpath.join "/srv/pub" "sub") = false
  /\ sent_messages (handler_events (serving "/srv/pub" 8192) peer w)
     = [b "SIZE:4096"; b "ERROR:[Errno 21] Is a directory: '/srv/pub/sub'"].
Proof. vm_compute. repeat split; reflexivity. Qed.

End TransferClaims.

(** ** Decimal text *)

Module IntFacts.
Import Py.

Lemma digits_of_uint (d : Decimal.uint) (acc : Z) (after_digit : bool) :
  digits acc after_digit (NilEmpty.string_of_uint d)
  = match d with
    | Decimal.Nil => if after_digit then Some acc else None
    | _ => Some (uint_value acc d)
    end.
Proof.
  revert acc after_digit.
  induction d as [|d IH|d IH|d IH|d IH|d IH|d IH|d IH|d IH|d IH|d IH];
    intros acc after_digit; [reflexivity | ..];
    cbn [NilEmpty.string_of_uint digits uint_value];
    change (digit_val "0") with (Some 0); change (digit_val "1") with (Some 1);
    change (digit_val "2") with (Some 2); change (digit_val "3") with (Some 3);
    change (digit_val "4") with (Some 4); change (digit_val "5") with (Some 5);
    change (digit_val "6") with (Some 6); change (digit_val "7") with (Some 7);
    change (digit_val "8") with (Some 8); change (digit_val "9") with (Some 9);
    cbv beta iota; rewrite IH; destruct d; reflexivity.
Qed.

Lemma uint_value_acc (d : Decimal.uint) (acc : positive) :
  uint_value (Z.pos acc) d = Z.pos (Pos.of_uint_acc d acc).
Proof.
  revert acc.
  induction d as [|d IH|d IH|d IH|d IH|d IH|d IH|d IH|d IH|d IH|d IH];
    intros acc; [reflexivity | ..];
    cbn [uint_value Pos.of_uint_acc]; rewrite <- IH; f_equal; lia.
Qed.

Lemma uint_value_of_uint (d : Decimal.uint) :
  uint_value 0 d = Z.of_N (Pos.of_uint d).
Proof.
  induction d as [|d IH|d IH|d IH|d IH|d IH|d IH|d IH|d IH|d IH|d IH];
    [reflexivity | exact IH | ..];
    cbn [uint_value Pos.of_uint Z.of_N]; rewrite <- uint_value_acc; reflexivity.
Qed.

Lemma all_digits_of_uint (d : Decimal.uint) :
  all_digits (NilEmpty.string_of_uint d) = true.
Proof. induction d; [reflexivity | exact IHd ..]. Qed.

Lemma digit_not_space (a : ascii) : is_digit a = true -> is_space a = false.
Proof.
  unfold is_digit, is_space. intros H.
  apply andb_true_iff in H as [H1 H2].
  apply N.leb_le in H1, H2.
  apply orb_false_iff. split; apply andb_false_iff.
  - right. apply N.leb_gt. lia.
  - right. apply N.leb_gt. lia.
Qed.

Lemma rstrip_digits (s : str) : all_digits s = true -> rstrip s = s.
Proof.
  induction s as [|a s IH]; [reflexivity |].
  cbn [all_digits rstrip]. intros H. apply andb_true_iff in H as [Ha Hs].
  rewrite (IH Hs). destruct s; [| reflexivity].
  now rewrite (digit_not_space a Ha).
Qed.

Lemma lstrip_digit (a : ascii) (s : str) :
  is_digit a = true -> lstrip (String a s) = String a s.
Proof. intros H. cbn [lstrip]. now rewrite (digit_not_space a H). Qed.

Lemma uint_text_head (d : Decimal.uint) :
  d <> Decimal.Nil ->
  exists a s, NilEmpty.string_of_uint d = String a s /\ is_digit a = true
              /\ a <> "-"%char /\ a <> "+"%char.
Proof.
  intros Hd. destruct d; [easy | ..]; cbn [NilEmpty.string_of_uint];
    eexists _, _; (split; [reflexivity |]); repeat split; discriminate.
Qed.

Lemma int_plain (a : ascii) (s : str) :
  is_digit a = true -> all_digits s = true ->
  int (String a s) = digits 0 false (String a s).
Proof.
  intros Ha Hs. unfold int.
  assert (all_digits (String a s) = true) as Hall
    by (cbn [all_digits]; now rewrite Ha, Hs).
  rewrite (rstrip_digits _ Hall), (lstrip_digit a s Ha).
  assert (a <> "-"%char /\ a <> "+"%char) as [Hm Hp].
  { unfold is_digit in Ha. split; intros ->; discriminate Ha. }
  destruct a as [[] [] [] [] [] [] [] []]; try reflexivity;
    first [now elim Hm | now elim Hp].
Qed.

Lemma pos_to_uint_not_nil (p : positive) : Pos.to_uint p <> Decimal.Nil.
Proof.
  intros H. pose proof (DecimalPos.Unsigned.of_to p) as E.
  rewrite H in E. discriminate E.
Qed.

Lemma int_of_pos_text (p : positive) :
  int (NilEmpty.string_of_uint (Pos.to_uint p)) = Some (Z.pos p)
  /\ all_digits (NilEmpty.string_of_uint (Pos.to_uint p)) = true.
Proof.
  pose proof (pos_to_uint_not_nil p) as Hnil.
  pose proof (all_digits_of_uint (Pos.to_uint p)) as Hall.
  split; [| assumption].
  destruct (uint_text_head _ Hnil) as (a & s & E & Ha & _).
  rewrite E in Hall |- *. cbn [all_digits] in Hall.
  apply andb_true_iff in Hall as [_ Hs].
  rewrite (int_plain a s Ha Hs), <- E, digits_of_uint.
  destruct (Pos.to_uint p) eqn:Ep; [easy | ..];
    rewrite <- Ep, uint_value_of_uint, DecimalPos.Unsigned.of_to; reflexivity.
Qed.

(** [int(str(n))] is [n]. *)
Lemma int_of_str (n : Z) : int (str_of_int n) = Some n.
Proof.
  unfold str_of_int. destruct n as [|p|p]; [reflexivity | |].
  - cbn [Z.to_int NilZero.string_of_int]. unfold NilZero.string_of_uint.
    destruct (int_of_pos_text p) as [H _].
    destruct (Pos.to_uint p) eqn:E; [now elim (pos_to_uint_not_nil p) | exact H ..].
  - cbn [Z.to_int NilZero.string_of_int]. unfold NilZero.string_of_uint.
    destruct (int_of_pos_text p) as [H Hall].
    pose proof (pos_to_uint_not_nil p) as Hnil.
    assert (NilEmpty.string_of_uint (Pos.to_uint p)
            = match Pos.to_uint p with
              | Decimal.Nil => "0"
              | _ => NilEmpty.string_of_uint (Pos.to_uint p)
              end) as E by (destruct (Pos.to_uint p); [easy | reflexivity ..]).
    rewrite <- E. clear E.
    destruct (uint_text_head _ Hnil) as (a & s & E & Ha & _).
    rewrite E in *. cbn [all_digits] in Hall.
    apply andb_true_iff in Hall as [_ Hs].
    assert (all_digits (String a s) = true) as Hall'
      by (cbn [all_digits]; now rewrite Ha, Hs).
    unfold int.
    assert (rstrip (String "-" (String a s)) = String "-" (String a s)) as Hr.
    { change (rstrip (String "-" (String a s)))
        with (match rstrip (String a s) with
              | EmptyString =>
                  if is_space "-" then EmptyString else String "-" EmptyString
              | String c r' => String "-" (String c r')
              end).
      rewrite (rstrip_digits _ Hall'). reflexivity. }
    rewrite Hr. cbn [lstrip]. change (is_space "-") with false. cbv iota.
    rewrite (int_plain a s Ha Hs) in H. rewrite H. reflexivity.
Qed.

Lemma utf8_valid_ascii (s : str) :
  all_ascii s = true -> utf8_valid (encode s) = true.
Proof.
  unfold encode. induction s as [|a s IH]; [reflexivity |].
  cbn [all_ascii]. intros H. apply andb_true_iff in H as [Ha Hs].
  change (list_byte_of_string (String a s))
    with (byte_of_ascii a :: list_byte_of_string s).
  cbn [utf8_valid].
  assert (in_range 0 127 (byte_of_ascii a) = true) as Hr.
  { unfold is_ascii in Ha.
    destruct a as [[] [] [] [] [] [] [] []]; first [reflexivity | discriminate Ha]. }
  rewrite Hr. exact (IH Hs).
Qed.

Lemma digits_ascii (s : str) : all_digits s = true -> all_ascii s = true.
Proof.
  induction s as [|a s IH]; [reflexivity |].
  cbn [all_digits all_ascii]. intros H. apply andb_true_iff in H as [Ha Hs].
  rewrite (IH Hs), andb_true_r.
  unfold is_digit in Ha. unfold is_ascii.
  apply andb_true_iff in Ha as [_ H2]. apply N.leb_le in H2. apply N.ltb_lt. lia.
Qed.

Lemma str_of_int_ascii (n : Z) : all_ascii (str_of_int n) = true.
Proof.
  unfold str_of_int. destruct n as [|p|p]; [reflexivity | |];
    cbn [Z.to_int NilZero.string_of_int]; unfold NilZero.string_of_uint;
    pose proof (all_digits_of_uint (Pos.to_uint p)) as Hall;
    apply digits_ascii in Hall.
  - destruct (Pos.to_uint p); [reflexivity | exact Hall ..].
  - cbn [all_ascii]. change (is_ascii "-") with true. cbn [andb].
    destruct (Pos.to_uint p); [reflexivity | exact Hall ..].
Qed.

(** X4.  The size announcement survives the wire for every integer [n]:
    the server's text [SIZE:<n>] (the f-string of line 115), encoded and
    decoded, is taken by the client for a size announcement and not for an
    error, and [int] of what follows the prefix is [n] again. *)
Theorem size_announcement_round_trip (n : Z) :
  let response := "SIZE:" ++ str_of_int n in
  decode (encode response) = Some response
  /\ startswith response "ERROR:" = false
  /\ startswith response "SIZE:" = true
  /\ int (drop 5 response) = Some n.
Proof.
  intros response. split; [| split; [reflexivity | split; [reflexivity |]]].
  - apply PyFacts.decode_encode. apply utf8_valid_ascii.
    unfold response. cbn [append all_ascii]. apply str_of_int_ascii.
  - unfold response. cbn [append drop]. apply int_of_str.
Qed.

End IntFacts.

(** ** Complete downloads *)

Module DownloadFacts.
Import Py FS Sys Client Spec PyFacts Exec ClientExec IntFacts Examples.

Lemma content_store (name : str) (f : bytes -> bytes) (l : list (str * bytes)) :
  content name (store name f l)
  = Some (f match content name l with Some d => d | None => [] end).
Proof.
  induction l as [|[n d] l IH]; cbn [store content].
  - now rewrite String.eqb_refl.
  - destruct (String.eqb n name) eqn:E; cbn [content]; rewrite E; auto.
Qed.

Lemma content_store_other (name other : str) (f : bytes -> bytes)
  (l : list (str * bytes)) :
  other <> name -> content other (store name f l) = content other l.
Proof.
  intros Hne. induction l as [|[n d] l IH]; cbn [store content].
  - destruct (String.eqb name other) eqn:E; [| reflexivity].
    apply String.eqb_eq in E. congruence.
  - destruct (String.eqb n name) eqn:E; cbn [content].
    + apply String.eqb_eq in E. subst n.
      destruct (String.eqb name other) eqn:E'; [| reflexivity].
      apply String.eqb_eq in E'. congruence.
    + now rewrite IH.
Qed.

Lemma progress_bar_prints (current total : Z) (w : world) :
  total <> 0 ->
  exists arrow spaces percent,
    progress_bar current total w
    = (Ret tt, emit (Print (OutProgress arrow spaces percent current total)) w).
Proof.
  intros Ht. unfold progress_bar, bind, truediv, print.
  assert (Qeq_bool (inject_Z total) 0 = false) as Hz.
  { destruct (Qeq_bool (inject_Z total) 0) eqn:E; [| reflexivity].
    apply Qeq_bool_eq in E. unfold Qeq in E. cbn in E. lia. }
  rewrite Hz. unfold ret. eexists _, _, _. reflexivity.
Qed.

(** When the announced number of bytes arrives, every read returning a
    whole chunk, the loop appends the chunks to the destination in order,
    prints one progress line per chunk and stops without another read. *)
Lemma recv_loop_complete (chunks : list bytes) :
  forall (fuel : nat) (save : str) (size br : Z) (w : world) (rest : list recv_ev)
         (d0 : bytes),
    Forall (fun c => 0 < len c <= 8192) chunks ->
    0 <= br ->
    br + len (List.concat chunks) = size ->
    inbox w = (map RecvData chunks ++ rest)%list ->
    content save (files w) = Some d0 ->
    (List.length chunks < fuel)%nat ->
    exists fl evs,
      recv_loop fuel save size br w
      = (Ret size, evolve rest (send_faults w) (clock w) fl evs w)
      /\ content save fl = Some (d0 ++ List.concat chunks)%list
      /\ (forall other, other <> save -> content other fl = content other (files w))
      /\ Forall (fun e => is_progress e = true) evs
      /\ List.length evs = List.length chunks.
Proof.
  induction chunks as [|c chunks IH];
    intros fuel save size br w rest d0 Hsz Hbr Hsum Hin Hd0 Hfuel.
  - destruct fuel as [|fuel]; [cbn in Hfuel; lia |].
    cbn [List.concat] in Hsum. unfold len in Hsum. cbn in Hsum.
    cbn [recv_loop map app] in *.
    assert ((br <? size)%Z = false) as Hg by (apply Z.ltb_ge; lia). rewrite Hg.
    exists (files w), []. unfold ret. split; [| split; [| split; [| split]]].
    + f_equal; [f_equal; lia |]. rewrite <- Hin. symmetry. apply evolve_same.
    + cbn [List.concat]. now rewrite app_nil_r.
    + reflexivity.
    + constructor.
    + reflexivity.
  - destruct fuel as [|fuel]; [cbn in Hfuel; lia |].
    pose proof (Forall_inv Hsz) as Hc. pose proof (Forall_inv_tail Hsz) as Hsz'.
    cbn beta in Hc.
    cbn [List.concat] in Hsum. unfold len in Hsum, Hc. rewrite length_app in Hsum.
    cbn [recv_loop].
    assert ((br <? size)%Z = true) as Hg by (apply Z.ltb_lt; lia).
    rewrite Hg. unfold bind at 1. unfold recv. rewrite Hin. cbn [map app next_recv].
    assert ((len c <=? 8192)%Z = true) as Hle by (apply Z.leb_le; unfold len; lia).
    rewrite Hle. destruct c as [|x c]; [cbn in Hc; lia |].
    unfold bind at 1. unfold write. unfold bind at 1.
    match goal with
    | |- context [progress_bar ?cur ?tot ?w0] =>
        destruct (progress_bar_prints cur tot w0) as (ar & sp & pc & Epb);
        [lia | rewrite Epb]
    end.
    match goal with
    | |- context [recv_loop fuel save ?sz ?br' ?w1] =>
        destruct (IH fuel save sz br' w1 rest (d0 ++ x :: c)%list) as
          (fl & evs & E & Hcontent & Hother & Hprog & Hlen)
    end.
    + assumption.
    + unfold len. lia.
    + unfold len. lia.
    + reflexivity.
    + cbn [files emit with_files with_inbox]. rewrite content_store, Hd0. reflexivity.
    + cbn [List.length] in Hfuel. lia.
    + rewrite E. eexists fl, (_ :: evs). split; [| split; [| split; [| split]]].
      * f_equal. unfold evolve, emit, with_files, with_inbox. cbn.
        rewrite <- app_assoc. reflexivity.
      * rewrite Hcontent, <- app_assoc. reflexivity.
      * intros other Hne. rewrite (Hother other Hne).
        cbn [files emit with_files with_inbox]. now apply content_store_other.
      * constructor; [reflexivity | assumption].
      * cbn [List.length]. now rewrite Hlen.
Qed.

Lemma length_le_concat (chunks : list bytes) :
  Forall (fun c => 0 < len c <= 8192) chunks ->
  (List.length chunks <= List.length (List.concat chunks))%nat.
Proof.
  induction 1 as [|c chunks Hc _ IH]; [reflexivity |].
  cbn [List.length List.concat]. rewrite length_app. unfold len in Hc. lia.
Qed.

(** One run of [request_file] in which the announced bytes arrive whole. *)
Lemma download_run (addr : str) (port : Z) (filename : str)
  (save_as : option str) (w : world) (chunks : list bytes) (rest : list recv_ev) :
  connect_fault w = None ->
  close_fault w = None ->
  fst (next_fault (send_faults w)) = None ->
  fst (next_fault (snd (next_fault (send_faults w)))) = None ->
  open_fault w (destination filename save_as) = None ->
  Forall (fun c => 0 < len c <= 8192) chunks ->
  next_recv 1024 (inbox w)
  = (inl (encode ("SIZE:" ++ str_of_int (len (List.concat chunks)))),
     (map RecvData chunks ++ rest)%list) ->
  let w' := exec (request_file addr port filename save_as) w in
  run (request_file addr port filename save_as) w = Ret true
  /\ content (destination filename save_as) (files w') = Some (List.concat chunks)
  /\ (forall other, other <> destination filename save_as ->
        content other (files w') = content other (files w))
  /\ inbox w' = rest
  /\ Server.sent_messages (request_events addr port filename save_as w)
     = [encode ("GET:" ++ filename); b "READY"].
Proof.
  destruct w as [f ib sf cf clf opf clk ac fl tr].
  cbn [connect_fault close_fault send_faults inbox open_fault files].
  intros -> -> Hs1 Hs2 Hopen Hsz Hrecv.
  destruct (next_fault sf) as [o1 sf1] eqn:Hsf0. cbn [fst snd] in Hs1, Hs2. subst o1.
  destruct (next_fault sf1) as [o2 sf2] eqn:Hsf1. cbn [fst] in Hs2. subst o2.
  pose proof (int_of_str (len (List.concat chunks))) as Hint.
  pose proof (str_of_int_ascii (len (List.concat chunks))) as Hascii.
  remember (len (List.concat chunks)) as n eqn:Hn.
  assert (decode (encode ("SIZE:" ++ str_of_int n)) = Some ("SIZE:" ++ str_of_int n))
    as Hdec.
  { apply decode_encode. apply utf8_valid_ascii. cbn [append all_ascii]. exact Hascii. }
  assert (startswith ("SIZE:" ++ str_of_int n) "ERROR:" = false) as He by reflexivity.
  assert (startswith ("SIZE:" ++ str_of_int n) "SIZE:" = true) as Hst by reflexivity.
  assert (int (drop 5 ("SIZE:" ++ str_of_int n)) = Some n) as Hi by exact Hint.
  remember ("SIZE:" ++ str_of_int n) as response eqn:Hresp.
  unfold request_events, request_file.
  generalize dependent (destination filename save_as). intros dest Hopen.
  unfold_monad. world_simpl.
  rewrite Hsf0. world_simpl.
  rewrite Hrecv. world_simpl.
  rewrite Hdec. cbv beta iota. rewrite He, Hst, Hi. cbv beta iota. world_simpl.
  rewrite Hsf1. world_simpl.
  destruct (next_time clk) as [t0 clk0]. world_simpl.
  rewrite Hopen. world_simpl.
  match goal with
  | |- context [recv_loop ?fuel dest n 0 ?w1] =>
      destruct (recv_loop_complete chunks fuel dest n 0 w1 rest [] Hsz) as
        (fl' & evs & E & Hcontent & Hother & Hprog & _)
  end.
  - lia.
  - subst n. lia.
  - reflexivity.
  - cbn [files]. rewrite content_store. reflexivity.
  - pose proof (length_le_concat chunks Hsz) as Hl. subst n. unfold len. lia.
  - rewrite E. world_simpl.
    destruct (next_time clk0) as [t1 clk1]. world_simpl.
    sym_rate. world_simpl.
    split; [reflexivity |].
    split; [exact Hcontent |].
    split; [| split; [reflexivity |]].
    + intros other Hne. rewrite (Hother other Hne). cbn [files].
      now apply content_store_other.
    + rewrite <- ?app_assoc. rewrite skipn_length_app. cbn [app Server.sent_messages].
      do 2 f_equal.
      assert (forall l : list event,
                 Forall (fun e => is_progress e = true) l ->
                 forall tail, Server.sent_messages (l ++ tail)%list
                              = Server.sent_messages tail) as Hquiet.
      { induction 1 as [|e l He' _ IH]; intros tail; [reflexivity |].
        destruct e as [| | | | | | | |o]; try discriminate He'.
        cbn [app Server.sent_messages]. apply IH. }
      rewrite (Hquiet evs Hprog). reflexivity.
Qed.

(** X5.  A download that arrives whole.  The server's answer is the size
    announcement [SIZE:<n>] and the [n] bytes then arrive as any sequence of
    non-empty reads of at most 8192 bytes (connecting, the two sends, opening
    the destination and closing succeed).  [request_file] returns [True],
    the destination holds exactly the [n] bytes in order whatever it held
    before, no other local file changes, and the client consumes nothing of
    what the peer sends after the [n]th byte. *)
Theorem complete_download (addr : str) (port : Z) (filename : str)
  (save_as : option str) (w : world) (chunks : list bytes) (rest : list recv_ev) :
  connect_fault w = None ->
  close_fault w = None ->
  fst (next_fault (send_faults w)) = None ->
  fst (next_fault (snd (next_fault (send_faults w)))) = None ->
  open_fault w (destination filename save_as) = None ->
  Forall (fun c => 0 < len c <= 8192) chunks ->
  next_recv 1024 (inbox w)
  = (inl (encode ("SIZE:" ++ str_of_int (len (List.concat chunks)))),
     (map RecvData chunks ++ rest)%list) ->
  let w' := exec (request_file addr port filename save_as) w in
  run (request_file addr port filename save_as) w = Ret true
  /\ content (destination filename save_as) (files w') = Some (List.concat chunks)
  /\ (forall other, other <> destination filename save_as ->
        content other (files w') = content other (files w))
  /\ inbox w' = rest.
Proof.
  intros Hc Hcl Hs1 Hs2 Hopen Hsz Hrecv.
  destruct (download_run addr port filename save_as w chunks rest
              Hc Hcl Hs1 Hs2 Hopen Hsz Hrecv) as (Hrun & Hcontent & Hother & Hin & _).
  cbv zeta. auto.
Qed.

(** The eleven bytes of [a.txt] arriving in two reads, with one more read
    pending behind them. *)
Lemma complete_download_witness :
  let w := world_of [RecvData (b "SIZE:11"); RecvData (b "hello ");
                     RecvData (b "world"); RecvData (b "more")] in
  run (request_file "localhost" 12345 "a.txt" None) w = Ret true
  /\ content "a.txt" (files (exec (request_file "localhost" 12345 "a.txt" None) w))
     = Some (b "hello world")
  /\ inbox (exec (request_file "localhost" 12345 "a.txt" None) w)
     = [RecvData (b "more")].
Proof.
  intros w.
  pose proof (complete_download "localhost" 12345 "a.txt" None w
                [b "hello "; b "world"] [RecvData (b "more")]) as H.
  refine ((fun H' => conj (proj1 H') (conj (proj1 (proj2 H')) (proj2 (proj2 (proj2 H')))))
            (H _ _ _ _ _ _ _)); try (vm_compute; reflexivity).
  repeat constructor; vm_compute; congruence.
Defined.

End DownloadFacts.

(** ** What the client does on every path *)

Module ClientPaths.
Import Py FS Sys Client Spec PyFacts Exec ClientExec Examples.

(** Everything but the last event of a right-nested list that ends with
    [Close]. *)
Ltac init_of l :=
  lazymatch l with
  | [Close] => constr:(@nil event)
  | (?evs ++ ?r)%list => let p := init_of r in constr:((evs ++ p)%list)
  | ?x :: ?r => let p := init_of r in constr:(x :: p)
  end.

Ltac ends_with_close :=
  match goal with
  | |- exists pre, ?l = (pre ++ [Close])%list =>
      let p := init_of l in
      exists p; cbn [app]; rewrite <- ?app_assoc; cbn [app]; reflexivity
  end.

(** X6.  Whatever the peer sends and whichever call fails,
    [request_file] and the client's [list_files] end by closing the socket:
    [Close] is the last thing either does.  If closing does not raise,
    neither call raises: [request_file] returns a boolean and [list_files]
    returns. *)
Theorem client_always_closes (addr : str) (port : Z) (filename : str)
  (save_as : option str) (w : world) :
  (exists pre, request_events addr port filename save_as w = (pre ++ [Close])%list)
  /\ (exists pre, list_events addr port w = (pre ++ [Close])%list)
  /\ (close_fault w = None ->
      (exists r, run (request_file addr port filename save_as) w = Ret r)
      /\ run (list_files addr port) w = Ret tt).
Proof.
  destruct w as [f ib sf cf clf opf clk ac fl tr].
  cbn [close_fault].
  split; [| split; [| intros ->; split]].
  - unfold request_events, request_file. unfold_monad. world_simpl.
    repeat sym_client.
    all: rewrite <- ?app_assoc; rewrite skipn_length_app; cbn [app].
    all: ends_with_close.
  - unfold list_events, list_files. unfold_monad. world_simpl.
    repeat sym_client.
    all: try match goal with
         | |- context [print_entries ?i ?l ?w0] =>
             destruct (ListingClaims.print_entries_events l i w0) as (pe & E & _);
             rewrite E; world_simpl
         end.
    all: repeat sym_client.
    all: rewrite <- ?app_assoc; rewrite skipn_length_app; cbn [app].
    all: ends_with_close.
  - unfold request_file. unfold_monad. world_simpl.
    repeat sym_client.
    all: eexists; reflexivity.
  - unfold list_files. unfold_monad. world_simpl.
    repeat sym_client.
    all: try match goal with
         | |- context [print_entries ?i ?l ?w0] =>
             destruct (ListingClaims.print_entries_events l i w0) as (pe & E & _);
             rewrite E; world_simpl
         end.
    all: repeat sym_client.
    all: reflexivity.
Qed.

(** X7.  [request_file] returns [True] only after it has sent [READY] and
    printed that the file was received; and unless it has printed that the
    file was found (a size was announced), it leaves the local files as
    they were: an error answer, an unexpected answer or a failed call
    creates and truncates nothing. *)
Theorem download_reports (addr : str) (port : Z) (filename : str)
  (save_as : option str) (w : world) :
  let evs := request_events addr port filename save_as w in
  let w' := exec (request_file addr port filename save_as) w in
  (run (request_file addr port filename save_as) w = Ret true ->
   In (Send (b "READY")) evs
   /\ In (Print (OutReceived (destination filename save_as))) evs)
  /\ (existsb is_found evs = false -> files w' = files w).
Proof.
  destruct w as [f ib sf cf clf opf clk ac fl tr].
  unfold request_events, request_file.
  generalize (destination filename save_as). intros dest.
  unfold_monad. world_simpl.
  repeat sym_client.
  all: rewrite <- ?app_assoc; rewrite skipn_length_app; cbn [app].
  all: split;
    [ intros Hrun;
      first [ discriminate Hrun
            | split; cbn [In];
              [ auto 12
              | do 6 right; apply in_or_app; right; cbn [In]; auto ] ]
    | cbn [existsb is_found orb]; intros Hfound;
      first [reflexivity | discriminate Hfound] ].
Qed.

End ClientPaths.

(** ** Streaming over a transport that may fail *)

Module StreamFacts.
Import Py FS Sys Server Spec PyFacts Exec Examples.

(** The streaming loop over any transport: the chunks it gets accepted are
    a prefix of what is left of the file, and it stops at the first chunk
    the transport refuses. *)
Lemma send_loop_stream_general (fuel : nat) (bs : Z) (rest : bytes) (n : Z)
  (w : world) sf0 evs0 :
  (List.length rest < fuel)%nat ->
  exists cs fin sf r,
    send_loop fuel bs rest n (after_sends sf0 evs0 w)
    = (r, after_sends sf (evs0 ++ map SendAll cs ++ fin)%list w)
    /\ (exists tail, rest = (List.concat cs ++ tail)%list)
    /\ ((r = Ret (n + len (List.concat cs)) /\ fin = [])
        \/ (exists d e, r = Raise e /\ fin = [SendAllFailed d e])).
Proof.
  revert rest n sf0 evs0.
  induction fuel as [|fuel IH]; intros rest n sf0 evs0 Hlt; [lia |].
  cbn [send_loop].
  destruct (file_read bs rest) as [data rest'] eqn:Hread.
  assert (rest = (data ++ rest')%list) as Hsplit.
  { unfold file_read in Hread. destruct (bs <? 0)%Z.
    - inversion Hread; subst. now rewrite app_nil_r.
    - inversion Hread; subst. symmetry. apply firstn_skipn. }
  destruct data as [|x data].
  - exists [], [], sf0, (Ret n). unfold ret, len. cbn [map app List.concat List.length].
    rewrite app_nil_r, Z.add_0_r.
    split; [reflexivity |]. split; [now exists rest | left; now split].
  - assert (List.length rest' < fuel)%nat as Hlt'.
    { rewrite Hsplit, length_app in Hlt. cbn [List.length] in Hlt. lia. }
    unfold bind, sendall, transmit. cbn [send_faults after_sends].
    destruct (next_fault sf0) as [[e|] sf1].
    + exists [], [SendAllFailed (x :: data) e], sf1, (Raise e).
      rewrite after_sends_emit. cbn [map app List.concat].
      split; [reflexivity |]. split; [now exists rest |].
      right. now exists (x :: data), e.
    + rewrite after_sends_emit.
      destruct (IH rest' (n + len (x :: data)) sf1 (evs0 ++ [SendAll (x :: data)])%list Hlt')
        as (cs & fin & sf & r & E & (tail & Htail) & Hr).
      exists ((x :: data) :: cs), fin, sf, r. rewrite E.
      split; [now rewrite <- app_assoc |].
      split.
      * exists tail. cbn [List.concat]. rewrite <- app_assoc, <- Htail. exact Hsplit.
      * destruct Hr as [[-> ->] | (d & e & -> & ->)].
        -- left. split; [| reflexivity]. f_equal. cbn [List.concat].
           unfold len. rewrite length_app. lia.
        -- right. now exists d, e.
Qed.

Lemma send_loop_stream (fuel : nat) (bs : Z) (rest : bytes) (n : Z) (w : world) :
  (List.length rest < fuel)%nat ->
  exists cs fin sf r,
    send_loop fuel bs rest n w = (r, after_sends sf (map SendAll cs ++ fin)%list w)
    /\ (exists tail, rest = (List.concat cs ++ tail)%list)
    /\ ((r = Ret (n + len (List.concat cs)) /\ fin = [])
        \/ (exists d e, r = Raise e /\ fin = [SendAllFailed d e])).
Proof.
  intros Hlt.
  destruct (send_loop_stream_general fuel bs rest n w (send_faults w) [] Hlt)
    as (cs & fin & sf & r & E & H).
  rewrite after_sends_same in E. cbn [app] in E. now exists cs, fin, sf, r.
Qed.

Lemma payload_chunks_stream (cs : list bytes) (l : list event) :
  payload_chunks (map SendAll cs ++ l)%list = (cs ++ payload_chunks l)%list.
Proof.
  rewrite TransferClaims.payload_chunks_app.
  now rewrite TransferClaims.payload_chunks_sendall.
Qed.

Lemma after_failure_stream (cs : list bytes) (l : list event) :
  after_failure (map SendAll cs ++ l)%list = after_failure l.
Proof. induction cs as [|c cs IH]; [reflexivity | exact IH]. Qed.

Lemma failed_stream_stream (cs : list bytes) (l : list event) :
  existsb is_failed_stream (map SendAll cs ++ l)%list = existsb is_failed_stream l.
Proof. induction cs as [|c cs IH]; [reflexivity | exact IH]. Qed.

Lemma is_rate_stream (cs : list bytes) (l : list event) :
  existsb is_rate (map SendAll cs ++ l)%list = existsb is_rate l.
Proof. induction cs as [|c cs IH]; [reflexivity | exact IH]. Qed.

Lemma is_stream_sendall (cs : list bytes) :
  Forall (fun e => is_stream e = true) (map SendAll cs).
Proof. induction cs; constructor; auto. Qed.

(** The loop, run symbolically with [send_loop_stream]. *)
Ltac sym_stream :=
  match goal with
  | |- context [send_loop ?fu ?bs ?d ?n ?w] =>
      let cs := fresh "cs" in
      let fin := fresh "fin" in
      let sf := fresh "sf" in
      let r := fresh "r" in
      let E := fresh "Eloop" in
      let tail := fresh "tail" in
      let Htail := fresh "Htail" in
      let Hr := fresh "Hr" in
      destruct (send_loop_stream fu bs d n w (Nat.lt_succ_diag_r _))
        as (cs & fin & sf & r & E & (tail & Htail) & Hr);
      rewrite E;
      destruct Hr as [[-> ->] | (?d & ?e & -> & ->)]
  end.

Ltac sym_send := first [ sym_stream | sym_rate | sym_prim ]; world_simpl.

(** X8.  Whatever the transport does, what [send_file] gets accepted
    through [sendall] is a prefix of the requested file: either no payload
    is accepted at all, or the joined path resolves to a regular file and
    the accepted chunks, concatenated in order, are an initial part of its
    contents. *)
Theorem payload_is_file_prefix (self : server) (filename ip : str) (w : world) :
  let evs := new_events w (exec (send_file self filename ip) w) in
  payload_chunks evs = []
  \/ exists data tail,
       resolve (fs w) (posixpath.join (directory self) filename) = Some (File data)
       /\ data = (List.concat (payload_chunks evs) ++ tail)%list.
Proof.
  destruct w as [f ib sf cf clf opf clk ac fl tr].
  unfold new_events, send_file, path_exists. unfold_monad. world_simpl.
  repeat sym_send.
  all: rewrite <- ?app_assoc; rewrite skipn_length_app; cbn [app].
  all: try solve [left; reflexivity].
  all: right; eexists _, _; split; [reflexivity |].
  all: cbn [payload_chunks]; rewrite payload_chunks_stream; cbn [payload_chunks];
    rewrite (@app_nil_r bytes); eassumption.
Qed.

(** X9.  When a [sendall] raises in the middle of a transfer, the
    transfer is abandoned: no further chunk is handed to [sendall], no
    transfer rate is logged, the error is logged, and the one thing still
    handed to the transport is [ERROR:<text of the exception>], on the
    connection that already carries part of the payload.  [send_file]
    itself returns. *)
Theorem failed_stream_is_abandoned (self : server) (filename ip : str) (w : world) :
  let evs := new_events w (exec (send_file self filename ip) w) in
  existsb is_failed_stream evs = true ->
  run (send_file self filename ip) w = Ret tt
  /\ none is_stream (after_failure evs)
  /\ existsb is_rate evs = false
  /\ exists d e,
       In (SendAllFailed d e) evs
       /\ In (Log (LogSendError ip e)) (after_failure evs)
       /\ attempted (after_failure evs) = [encode ("ERROR:" ++ str_exn e)].
Proof.
  destruct w as [f ib sf cf clf opf clk ac fl tr].
  unfold new_events, send_file, path_exists. unfold_monad. world_simpl.
  repeat sym_send.
  all: rewrite <- ?app_assoc; rewrite skipn_length_app; cbn [app].
  all: cbn [existsb is_failed_stream orb]; rewrite ?failed_stream_stream;
    cbn [existsb is_failed_stream orb app]; intros Hfail; try discriminate Hfail.
  all: split; [reflexivity |].
  all: cbn [after_failure]; rewrite after_failure_stream; cbn [after_failure app].
  all: split; [unfold none; repeat constructor |].
  all: cbn [existsb is_rate orb]; rewrite is_rate_stream; cbn [existsb is_rate orb app].
  all: split; [reflexivity |].
  all: eexists _, _; split;
    [ right; apply in_or_app; right; left; reflexivity
    | split; [left; reflexivity | reflexivity] ].
Qed.

(** The pipe breaks at the second chunk of [a.txt]. *)
Lemma failed_stream_is_abandoned_witness :
  let w := with_send_faults [None; None; Some (OSError "[Errno 32] Broken pipe")]
             (world_of [RecvData (b "READY")]) in
  let evs := new_events w (exec (send_file (serving "/srv/pub" 4) "a.txt" peer) w) in
  run (send_file (serving "/srv/pub" 4) "a.txt" peer) w = Ret tt
  /\ none is_stream (after_failure evs).
Proof.
  intros w evs.
  refine ((fun H => conj (proj1 H) (proj1 (proj2 H)))
            (failed_stream_is_abandoned (serving "/srv/pub" 4) "a.txt" peer w _)).
  vm_compute. reflexivity.
Defined.

End StreamFacts.

(** ** The progress line *)

Module ProgressFacts.
Import Py Sys Client.





End ProgressFacts.

(** ** The prefix test of [send_file] on directory entries *)

Module PathFacts.
Import Py FS Sys Server Spec PyFacts FSFacts Exec Examples.

Lemma plain_name_inv (n : str) :
  plain_name n = true ->
  contains "/" n = false
  /\ (String.eqb n EmptyString || String.eqb n ".") = false
  /\ String.eqb n ".." = false
  /\ exists c r, n = String c r /\ Ascii.eqb c "/" = false.
Proof.
  unfold plain_name. intros H.
  apply andb_true_iff in H as [H Hs]. apply andb_true_iff in H as [H Hdd].
  apply andb_true_iff in H as [He Hd].
  apply negb_true_iff in Hs, Hdd, He, Hd.
  rewrite He, Hd. repeat split; auto.
  destruct n as [|c r]; [discriminate He |].
  exists c, r. split; [reflexivity |].
  cbn [contains] in Hs. now apply orb_false_iff in Hs as [? _].
Qed.

(** Appending to a directory name does not change how many slashes lead
    it, when the name does not end in a slash or what is appended does not
    start with one. *)
Lemma initial_slashes_app (d x : str) :
  d <> EmptyString ->
  endswith d "/" = false
  \/ (exists c r, x = String c r /\ Ascii.eqb c "/" = false) ->
  posixpath.initial_slashes (d ++ x) = posixpath.initial_slashes d.
Proof.
  intros Hd Hx. unfold posixpath.initial_slashes.
  destruct d as [|a d]; [easy |]. clear Hd. cbn [append startswith].
  destruct (Ascii.eqb a "/") eqn:Ea; [| reflexivity]. cbn [andb].
  destruct d as [|a1 d].
  - destruct Hx as [He | (c & r & -> & Hc)].
    + unfold endswith in He. cbn [last_char] in He. congruence.
    + cbn [append startswith]. now rewrite Hc.
  - cbn [append startswith].
    destruct (Ascii.eqb a1 "/") eqn:Ea1; [| reflexivity]. cbn [andb].
    destruct d as [|a2 d].
    + destruct Hx as [He | (c & r & -> & Hc)].
      * unfold endswith in He. cbn [last_char] in He. congruence.
      * cbn [append startswith]. now rewrite Hc.
    + reflexivity.
Qed.

Lemma concat_snoc (sep : str) (xs : list str) (n : str) :
  String.concat sep (xs ++ [n])
  = match xs with
    | [] => n
    | _ :: _ => String.concat sep xs ++ sep ++ n
    end.
Proof.
  induction xs as [|x xs IH]; [reflexivity |].
  destruct xs as [|y xs]; [reflexivity |].
  change (String.concat sep ((x :: y :: xs) ++ [n]))
    with (x ++ sep ++ String.concat sep ((y :: xs) ++ [n])).
  rewrite IH.
  change (String.concat sep (x :: y :: xs)) with (x ++ sep ++ String.concat sep (y :: xs)).
  now rewrite !append_assoc.
Qed.

Lemma append_nonempty (p q : str) :
  String.eqb q EmptyString = false -> String.eqb (p ++ q) EmptyString = false.
Proof. destruct p; [trivial | reflexivity]. Qed.

(** What [normpath] makes of a directory name joined with one of its
    entries: the components of the directory, then the entry. *)
Lemma normpath_join_entry (d n : str) :
  d <> EmptyString ->
  plain_name n = true ->
  let k := posixpath.initial_slashes d in
  let comps := rev (fold_left (posixpath.norm_step k) (split "/" d) []) in
  posixpath.normpath (posixpath.join d n)
  = posixpath.slashes k ++ Py.join "/" (comps ++ [n]).
Proof.
  intros Hd Hn k comps.
  destruct (plain_name_inv n Hn) as (Hslash & Hskip & Hdd & c & r & En & Hc).
  assert (startswith n "/" = false) as Hns by (rewrite En; cbn [startswith]; now rewrite Hc).
  assert (exists j,
            posixpath.join d n = j
            /\ j <> EmptyString
            /\ posixpath.initial_slashes j = k
            /\ fold_left (posixpath.norm_step k) (split "/" j) []
               = n :: fold_left (posixpath.norm_step k) (split "/" d) [])
    as (j & Ej & Hj & Hk & Hfold).
  { unfold posixpath.join. rewrite Hns.
    assert (String.eqb d EmptyString = false) as Hde
      by (destruct d; [easy | reflexivity]).
    rewrite Hde. cbn [orb].
    assert (forall F, posixpath.norm_step k F n = n :: F) as Hstep.
    { intros F. unfold posixpath.norm_step. rewrite Hskip, Hdd. reflexivity. }
    assert (forall F, posixpath.norm_step k F EmptyString = F) as Hempty
      by reflexivity.
    destruct (endswith d "/") eqn:Hend.
    - destruct (endswith_inv d "/" Hend) as [d' Ed'].
      exists (d ++ n). split; [reflexivity |].
      split; [destruct d; [easy | discriminate] |].
      split.
      + apply initial_slashes_app; [assumption |]. right. now exists c, r.
      + rewrite Ed'. rewrite append_assoc.
        change ("/" ++ n) with (String "/" n).
        rewrite !split_app, (split_plain _ _ Hslash), !fold_left_app.
        cbn [split fold_left]. now rewrite Hstep, Hempty.
    - exists (d ++ "/" ++ n). split; [reflexivity |].
      split; [destruct d; [easy | discriminate] |].
      split.
      + apply initial_slashes_app; [assumption |]. now left.
      + change ("/" ++ n) with (String "/" n).
        rewrite split_app, (split_plain _ _ Hslash), fold_left_app.
        cbn [fold_left]. apply Hstep. }
  rewrite Ej. unfold posixpath.normpath.
  assert (String.eqb j EmptyString = false) as Hje by (destruct j; [easy | reflexivity]).
  rewrite Hje. cbv zeta. rewrite Hk, Hfold. cbn [rev]. fold comps.
  assert (String.eqb (posixpath.slashes k ++ Py.join "/" (comps ++ [n])) EmptyString
          = false) as Hp.
  { unfold Py.join. rewrite concat_snoc. apply append_nonempty.
    destruct comps as [|x xs]; [now rewrite En |].
    now apply append_nonempty. }
  now rewrite Hp.
Qed.

(** X11.  The prefix test of [send_file] (lines 99-103) lets every
    directory entry through when the served directory does not normalize
    to [.]: for a name that is not empty, not [.] or [..] and free of
    slashes, the normalized joined path starts with the normalized
    directory, whether the directory is given absolute or relative, with
    or without a trailing slash. *)
Theorem entry_passes_prefix_test (d n : str) :
  plain_name n = true ->
  posixpath.normpath d <> "." ->
  startswith (posixpath.normpath (posixpath.join d n)) (posixpath.normpath d) = true.
Proof.
  intros Hn Hdot.
  assert (d <> EmptyString) as Hd by (intros ->; now apply Hdot).
  rewrite (normpath_join_entry d n Hd Hn). cbv zeta.
  unfold posixpath.normpath in *.
  assert (String.eqb d EmptyString = false) as Hde by (destruct d; [easy | reflexivity]).
  rewrite Hde in *. cbv zeta in Hdot.
  set (k := posixpath.initial_slashes d) in *.
  set (comps := rev (fold_left (posixpath.norm_step k) (split "/" d) [])) in *.
  destruct (String.eqb (posixpath.slashes k ++ Py.join "/" comps) EmptyString) eqn:E;
    [now elim Hdot |].
  unfold Py.join. rewrite concat_snoc. destruct comps as [|x xs].
  - cbn [String.concat]. rewrite append_nil_r. apply startswith_app.
  - rewrite <- append_assoc. apply startswith_app.
Qed.

Lemma entry_passes_prefix_test_witness :
  startswith (posixpath.normpath (posixpath.join "/srv/pub/" "a.txt"))
             (posixpath.normpath "/srv/pub/") = true.
Proof.
  apply (entry_passes_prefix_test "/srv/pub/" "a.txt"); [reflexivity | discriminate].
Defined.

(** X12.  With the served directory [.] (the default of [__init__] and of
    the command line) the joined path of a directory entry normalizes to
    the bare name, so every entry whose name does not start with a dot is
    refused: [send_file] logs a traversal attempt and the only thing it
    hands to the transport is [ERROR:Access denied]. *)
Theorem dot_root_denies_entries (self : server) (ip n : str) (w : world) :
  directory self = "." ->
  plain_name n = true ->
  startswith n "." = false ->
  let evs := new_events w (exec (send_file self n ip) w) in
  posixpath.normpath (posixpath.join (directory self) n) = n
  /\ In (Log (LogTraversal ip n)) evs
  /\ attempted evs = [b "ERROR:Access denied"].
Proof.
  intros Hdir Hn Hdot.
  assert (posixpath.normpath (posixpath.join "." n) = n) as Hnorm.
  { rewrite (normpath_join_entry "." n ltac:(discriminate) Hn). reflexivity. }
  destruct w as [f ib sf cf clf opf clk ac fl tr].
  unfold new_events, send_file. rewrite Hdir, Hnorm.
  change (posixpath.normpath ".") with ".". rewrite Hdot. cbn [negb].
  unfold_monad. world_simpl.
  destruct (next_fault sf) as [[e|] sf1]; world_simpl.
  all: rewrite <- ?app_assoc; rewrite skipn_length_app; cbn [app In attempted].
  all: auto.
Qed.

(** The default server and the regular file [a.txt] of its directory. *)
Lemma dot_root_denies_entries_witness :
  attempted (new_events (world_of [])
               (exec (send_file default_server "a.txt" peer) (world_of [])))
  = [b "ERROR:Access denied"].
Proof.
  refine (proj2 (proj2 (dot_root_denies_entries default_server peer "a.txt"
                          (world_of []) _ _ _))); reflexivity.
Defined.

End PathFacts.

(** ** The accept loop *)

Module ListenerFacts.
Import Listener.

Lemma count_app (p : event -> bool) (a c : list event) :
  count p (a ++ c)%list = (count p a + count p c)%nat.
Proof. unfold count. now rewrite filter_app, length_app. Qed.

Lemma threads_app (a c : list event) :
  threads (a ++ c)%list = (threads a ++ threads c)%list.
Proof.
  induction a as [|e a IH]; [reflexivity |].
  destruct e; cbn [app threads]; try exact IH. now rewrite IH.
Qed.


(** One run of the loop from a running state. *)
Lemma accept_loop_spec (script : list accept_ev) :
  forall st : state,
    running st = true ->
    exists evs,
      accept_loop script st
      = (if existsb is_interrupt script then Interrupted else Blocked,
         mkState true (server_socket st)
                 (active_connections st + connections (before_interrupt script))
                 (trace st ++ evs))
      /\ threads evs = handled (before_interrupt script)
      /\ accept_errors evs = failures (before_interrupt script)
      /\ quiet evs.
Proof.
  induction script as [|a script IH]; intros st Hrun.
  - exists []. cbn [accept_loop]. rewrite Hrun. cbn.
    rewrite Z.add_0_r, app_nil_r. destruct st; cbn in *; subst.
    repeat split; reflexivity.
  - destruct st as [r s n tr]. cbn [running] in Hrun. subst r.
    destruct a as [ip port [text|]|text|].
    + cbn [accept_loop running]. unfold accept_failed, emit, with_active.
      cbn [running server_socket active_connections trace].
      match goal with
      | |- context [accept_loop script ?st1] =>
          destruct (IH st1 eq_refl) as (evs & E & Ht & Ha & Hs & Hc & Hst); rewrite E
      end.
      cbn [running server_socket active_connections trace existsb is_interrupt orb
           before_interrupt connections handled failures].
      exists (Log (NewConnection ip port (n + 1)) :: Log (AcceptFailed text) :: evs).
      split; [f_equal; f_equal; [lia | now rewrite <- !app_assoc] |].
      cbn [threads accept_errors]. rewrite Ht, Ha.
      repeat split; assumption.
    + cbn [accept_loop running]. unfold emit, with_active.
      cbn [running server_socket active_connections trace].
      match goal with
      | |- context [accept_loop script ?st1] =>
          destruct (IH st1 eq_refl) as (evs & E & Ht & Ha & Hs & Hc & Hst); rewrite E
      end.
      cbn [running server_socket active_connections trace existsb is_interrupt orb
           before_interrupt connections handled failures].
      exists (Log (NewConnection ip port (n + 1)) :: Spawn ip port :: evs).
      split; [f_equal; f_equal; [lia | now rewrite <- !app_assoc] |].
      cbn [threads accept_errors]. rewrite Ht, Ha.
      repeat split; assumption.
    + cbn [accept_loop running]. unfold accept_failed, emit.
      cbn [running server_socket active_connections trace].
      match goal with
      | |- context [accept_loop script ?st1] =>
          destruct (IH st1 eq_refl) as (evs & E & Ht & Ha & Hs & Hc & Hst); rewrite E
      end.
      cbn [running server_socket active_connections trace existsb is_interrupt orb
           before_interrupt connections handled failures].
      exists (Log (AcceptFailed text) :: evs).
      split; [f_equal; f_equal; now rewrite <- !app_assoc |].
      cbn [threads accept_errors]. rewrite Ht, Ha.
      repeat split; assumption.
    + exists []. cbn. rewrite Z.add_0_r, app_nil_r. repeat split; reflexivity.
Qed.

(** Set-up touches neither the flag nor the count, logs nothing and starts
    nothing; it leaves a socket behind unless creating it failed. *)
Lemma setup_spec (self : Server.server) (env : faults) :
  exists evs,
    snd (setup self env init)
    = mkState false (match socket_fault env with None => true | Some _ => false end)
              0 evs
    /\ threads evs = [] /\ accept_errors evs = [] /\ quiet evs.
Proof.
  unfold setup, init, emit, with_socket.
  destruct (socket_fault env), (reuse_fault env), (bind_fault env), (listen_fault env);
    cbn; eexists; (split; [reflexivity |]); repeat split; reflexivity.
Qed.

Lemma setup_listens (self : Server.server) (env : faults) :
  listens env ->
  setup self env init
  = (None, mkState false true 0
             [Socket; SetReuse; Bind (Server.host self) (Server.port self); Listen 10]).
Proof. intros (H1 & H2 & H3 & H4). unfold setup. now rewrite H1, H2, H3, H4. Qed.

Lemma setup_fails (self : Server.server) (env : faults) :
  ~ listens env -> exists text, fst (setup self env init) = Some text.
Proof.
  unfold listens, setup. intros H.
  destruct (socket_fault env); [eexists; reflexivity |].
  destruct (reuse_fault env); [eexists; reflexivity |].
  destruct (bind_fault env); [eexists; reflexivity |].
  destruct (listen_fault env); [eexists; reflexivity |].
  exfalso. apply H. repeat split.
Qed.

Lemma stop_spec (env : faults) (st : state) :
  exists c,
    stop env st
    = mkState false (server_socket st) (active_connections st)
              (trace st ++ (if server_socket st then [c] else []) ++ [Log Stopped])
    /\ is_close c = true /\ is_stopped c = false /\ is_started c = false.
Proof.
  unfold stop, emit, with_running. destruct st as [r s n tr].
  cbn [running server_socket active_connections trace].
  destruct s; cbn [server_socket running active_connections trace].
  - destruct (close_fault env);
      [exists CloseSocketFailed | exists CloseSocket];
      cbn [server_socket running active_connections trace];
      rewrite <- app_assoc; now repeat split.
  - exists CloseSocket. now repeat split.
Qed.

(** X13.  Once the socket listens, [start] never returns by itself: it
    stays blocked in [accept] unless the keyboard interrupt arrives,
    whatever exceptions [accept] and the start of handler threads raise in
    between.  While it is blocked the socket stays open; when the interrupt
    leaves it, the [finally] clause has closed the socket once and logged
    [Server stopped] once, as the last line. *)
Theorem start_ends_by_interrupt_only (self : Server.server) (env : faults)
  (script : list accept_ev) :
  listens env ->
  let r := fst (start self env script init) in
  let st := snd (start self env script init) in
  r = (if existsb is_interrupt script then Interrupted else Blocked)
  /\ (r = Blocked -> running st = true /\ count is_close (trace st) = 0%nat)
  /\ (r = Interrupted ->
      running st = false
      /\ count is_close (trace st) = 1%nat
      /\ count is_stopped (trace st) = 1%nat
      /\ exists evs, trace st = (evs ++ [Log Stopped])%list).
Proof.
  intros Hl. unfold start. rewrite (setup_listens self env Hl).
  match goal with
  | |- context [accept_loop script ?st1] =>
      destruct (accept_loop_spec script st1 eq_refl)
        as (evs & E & _ & _ & Hs & Hc & _); rewrite E
  end.
  unfold emit, with_running in *.
  cbn [running server_socket active_connections trace] in *.
  destruct (existsb is_interrupt script); cbn [fst snd].
  - split; [reflexivity |]. split; [discriminate |]. intros _.
    match goal with
    | |- context [stop env ?st1] => destruct (stop_spec env st1) as (c & Es & Hcc & Hcs & _)
    end.
    rewrite Es. cbn [running server_socket active_connections trace].
    split; [reflexivity |].
    rewrite !count_app, Hs, Hc.
    split; [| split].
    + unfold count. cbn [filter is_close List.length app]. now rewrite Hcc.
    + unfold count. cbn [filter is_stopped List.length app]. now rewrite Hcs.
    + eexists. rewrite app_assoc. reflexivity.
  - cbn [running server_socket active_connections trace].
    split; [reflexivity |]. split; [| discriminate]. intros _.
    split; [reflexivity |].
    rewrite !count_app, Hc. reflexivity.
Qed.

Lemma start_ends_by_interrupt_only_witness :
  fst (start Server.default_server (mkFaults None None None None None)
         [Connection "10.0.0.7" 50000 None; AcceptError "timed out"; KeyboardInterrupt]
         init)
  = Interrupted.
Proof.
  refine (proj1 (start_ends_by_interrupt_only Server.default_server
                   (mkFaults None None None None None)
                   [Connection "10.0.0.7" 50000 None; AcceptError "timed out";
                    KeyboardInterrupt] _)).
  repeat split.
Defined.



(** X15.  When creating the socket, setting the option, binding or
    listening raises, [start] returns: it logs the start error with the
    text of the exception and [Server stopped], never logs that the server
    started, accepts nothing and starts no thread, and closes the socket
    once if it had been created and not at all otherwise. *)
Theorem failed_start_stops (self : Server.server) (env : faults)
  (script : list accept_ev) :
  ~ listens env ->
  let st := snd (start self env script init) in
  fst (start self env script init) = Returned
  /\ running st = false
  /\ active_connections st = 0%Z
  /\ threads (trace st) = []
  /\ count is_started (trace st) = 0%nat
  /\ count is_stopped (trace st) = 1%nat
  /\ count is_close (trace st)
     = (match socket_fault env with None => 1 | Some _ => 0 end)%nat
  /\ exists text,
       fst (setup self env init) = Some text
       /\ In (Log (StartFailed text)) (trace st).
Proof.
  intros Hl. destruct (setup_fails self env Hl) as [text Htext].
  destruct (setup_spec self env) as (evs & Est & Ht & _ & Hs & Hc & Hst).
  unfold start. destruct (setup self env init) as [err st0].
  cbn [fst snd] in *. subst err st0.
  match goal with
  | |- context [stop env ?st1] => destruct (stop_spec env st1) as (c & Es & Hcc & Hcs & Hct)
  end.
  cbn [fst snd]. rewrite Es. unfold emit.
  cbn [running server_socket active_connections trace].
  rewrite !threads_app, !count_app, Ht, Hs, Hc, Hst.
  split; [reflexivity |]. split; [reflexivity |]. split; [reflexivity |].
  split; [destruct (socket_fault env); destruct c; try discriminate Hcc; reflexivity |].
  split; [destruct (socket_fault env); destruct c; try discriminate Hcc; reflexivity |].
  split; [destruct (socket_fault env); destruct c; try discriminate Hcc; reflexivity |].
  split; [destruct (socket_fault env); destruct c; try discriminate Hcc; reflexivity |].
  exists text. split; [reflexivity |].
  apply in_or_app. left. apply in_or_app. right. now left.
Qed.

(** The port is taken. *)
Lemma failed_start_stops_witness :
  fst (start Server.default_server
         (mkFaults None None (Some "[Errno 98] Address already in use") None None)
         [KeyboardInterrupt] init)
  = Returned.
Proof.
  refine (proj1 (failed_start_stops Server.default_server
                   (mkFaults None None (Some "[Errno 98] Address already in use")
                      None None)
                   [KeyboardInterrupt] _)).
  intros (_ & _ & H & _). discriminate H.
Defined.



End ListenerFacts.

(** ** A download from end to end *)

Module RoundTrip.
Import Py FS Sys Server Spec PyFacts Exec ClientExec IntFacts DownloadFacts Examples.

(** The handler's side of a download over a transport that accepts
    everything: the size announcement, then the file in chunks. *)
Lemma handler_serves (self : server) (ip filename : str) (w : world)
  (data : bytes) (rest1 rest2 : list recv_ev) :
  0 < buffer_size self ->
  next_recv 1024 (inbox w) = (inl (encode ("GET:" ++ filename)), rest1) ->
  next_recv 1024 rest1 = (inl (b "READY"), rest2) ->
  utf8_valid (encode ("GET:" ++ filename)) = true ->
  startswith (posixpath.normpath (posixpath.join (directory self) filename))
             (posixpath.normpath (directory self)) = true ->
  resolve (fs w) (posixpath.join (directory self) filename) = Some (File data) ->
  Forall (eq None) (send_faults w) ->
  exists chunks,
    sent_messages (handler_events self ip w)
    = encode ("SIZE:" ++ str_of_int (len data)) :: chunks
    /\ List.concat chunks = data
    /\ Forall (fun c => 0 < len c <= buffer_size self) chunks.
Proof.
  destruct w as [f ib sf cf clf opf clk ac fl tr].
  cbn [inbox fs send_faults].
  intros Hbs Hrecv1 Hrecv2 Hutf Hprefix Hres Hq.
  unfold handler_events, handle_client, send_file.
  unfold_monad. unfold path_exists. world_simpl.
  rewrite Hrecv1. world_simpl.
  rewrite (decode_encode _ Hutf). cbv beta iota.
  rewrite (startswith_app "GET:").
  change 4%nat with (String.length "GET:"). rewrite drop_app.
  rewrite Hprefix. cbn [negb]. world_simpl.
  rewrite Hres. cbn [negb]. world_simpl.
  rewrite Hres. world_simpl.
  destruct (TransferClaims.next_fault_quiet sf Hq) as [Hnone Hq1].
  destruct (next_fault sf) as [o sf1]. cbn [fst snd] in Hnone, Hq1. subst o.
  world_simpl.
  rewrite Hrecv2. world_simpl.
  change (bytes_eqb (b "READY") (b "READY")) with true. cbn [negb]. world_simpl.
  destruct (next_time clk) as [t0 clk0]. world_simpl.
  rewrite Hres. world_simpl.
  match goal with
  | |- context [send_loop ?fu ?bs ?d ?n (mkWorld ?a1 ?a2 ?a3 ?a4 ?a5 ?a6 ?a7 ?a8 ?a9 (?tr0 ++ ?ev0)%list)] =>
      destruct (TransferClaims.send_loop_faultless fu bs d n
                  (mkWorld a1 a2 sf a4 a5 a6 a7 a8 a9 tr0) a3 ev0 Hbs
                  (Nat.lt_succ_diag_r _) Hq1)
        as (chunks & sf2 & Eloop & Hcat & Hsz & Hq2);
      unfold after_sends in Eloop; cbn [fs inbox send_faults connect_fault close_fault
        open_fault clock active_connections files trace] in Eloop;
      rewrite Eloop
  end.
  world_simpl.
  destruct (next_time clk0) as [t1 clk1]. world_simpl.
  sym_rate. world_simpl.
  exists chunks.
  assert (forall tail : list event,
             sent_messages tail = [] -> payload_chunks tail = [] ->
             sent_messages
               (SetTimeout 60 :: Send (encode ("SIZE:" ++ str_of_int (len data)))
                  :: (map SendAll chunks ++ tail)%list)
             = encode ("SIZE:" ++ str_of_int (len data)) :: chunks
             /\ payload_chunks
                  (SetTimeout 60 :: Send (encode ("SIZE:" ++ str_of_int (len data)))
                     :: (map SendAll chunks ++ tail)%list)
                = chunks) as Hshape.
  { intros tail H1 H2. cbn [sent_messages payload_chunks].
    rewrite TransferClaims.sent_messages_app, TransferClaims.payload_chunks_app, H1, H2,
      TransferClaims.sent_messages_sendall, TransferClaims.payload_chunks_sendall,
      !app_nil_r. now split. }
  destruct clf; world_simpl.
  all: unfold new_events; world_simpl.
  all: rewrite <- ?app_assoc; rewrite skipn_length_app; cbn [app].
  all: match goal with
       | |- context [(map SendAll _ ++ ?tail)%list] =>
           destruct (Hshape tail eq_refl eq_refl) as [Hs Hp]
       end.
  all: rewrite Hs; auto.
Qed.

(** X17.  A download from end to end.  The handler reads what the client
    sends, [GET:<name>] and [READY] (the request fits one read of 1024
    bytes), the name passes the prefix test and resolves to a regular
    file, the chunk size is between 1 and 8192, and the client reads what
    the handler sent (the announcement fits one read); no call fails on
    either side.  Then [request_file] returns [True], the destination
    holds exactly the contents of the served file, nothing the handler
    sent is left unread, and what the client sent is what the handler
    read. *)
Theorem download_round_trip (self : server) (ip filename : str) (sw : world)
  (data : bytes) (addr : str) (port : Z) (save_as : option str) (cw : world) :
  0 < buffer_size self <= 8192 ->
  inbox sw = [RecvData (encode ("GET:" ++ filename)); RecvData (b "READY")] ->
  len (encode ("GET:" ++ filename)) <= 1024 ->
  utf8_valid (encode ("GET:" ++ filename)) = true ->
  startswith (posixpath.normpath (posixpath.join (directory self) filename))
             (posixpath.normpath (directory self)) = true ->
  resolve (fs sw) (posixpath.join (directory self) filename) = Some (File data) ->
  Forall (eq None) (send_faults sw) ->
  len (encode ("SIZE:" ++ str_of_int (len data))) <= 1024 ->
  inbox cw = map RecvData (sent_messages (handler_events self ip sw)) ->
  connect_fault cw = None ->
  close_fault cw = None ->
  Forall (eq None) (send_faults cw) ->
  open_fault cw (Client.destination filename save_as) = None ->
  let cw' := exec (Client.request_file addr port filename save_as) cw in
  run (Client.request_file addr port filename save_as) cw = Ret true
  /\ content (Client.destination filename save_as) (files cw') = Some data
  /\ inbox cw' = []
  /\ map RecvData (sent_messages (Client.request_events addr port filename save_as cw))
     = inbox sw.
Proof.
  intros [Hbs Hmax] Hsin Hglen Hutf Hprefix Hres Hsq Hslen Hcin Hcon Hclose Hcq Hopen.
  assert (next_recv 1024 (inbox sw)
          = (inl (encode ("GET:" ++ filename)), [RecvData (b "READY")])) as Hr1.
  { rewrite Hsin. unfold next_recv.
    apply Z.leb_le in Hglen. now rewrite Hglen. }
  destruct (handler_serves self ip filename sw data [RecvData (b "READY")] []
              Hbs Hr1 eq_refl Hutf Hprefix Hres Hsq) as (chunks & Hsent & Hcat & Hsz).
  rewrite Hsent in Hcin. cbn [map] in Hcin.
  assert (Forall (fun c => 0 < len c <= 8192) chunks) as Hsz'.
  { eapply Forall_impl; [| exact Hsz]. cbn beta. intros c Hc. lia. }
  destruct (TransferClaims.next_fault_quiet _ Hcq) as [Hf1 Hcq1].
  destruct (TransferClaims.next_fault_quiet _ Hcq1) as [Hf2 _].
  destruct (download_run addr port filename save_as cw chunks []
              Hcon Hclose Hf1 Hf2 Hopen Hsz')
    as (Hrun & Hcontent & _ & Hin & Hmsgs).
  { rewrite Hcin. unfold next_recv. rewrite Hcat.
    apply Z.leb_le in Hslen. rewrite Hslen. now rewrite app_nil_r. }
  cbv zeta. rewrite Hcat in Hcontent. rewrite Hmsgs, Hsin.
  repeat split; assumption || reflexivity.
Qed.

(** [a.txt] travels from [/srv/pub], four bytes at a time, to a client
    that starts without files. *)
Lemma download_round_trip_witness :
  let sw := world_of [RecvData (b "GET:a.txt"); RecvData (b "READY")] in
  let cw := world_of (map RecvData
                        (sent_messages (handler_events (serving "/srv/pub" 4) peer sw))) in
  content "a.txt" (files (exec (Client.request_file "localhost" 12345 "a.txt" None) cw))
  = Some (b "hello world").
Proof.
  intros sw cw.
  refine (proj1 (proj2 (download_round_trip (serving "/srv/pub" 4) peer "a.txt" sw
                          (b "hello world") "localhost" 12345 None cw
                          _ _ _ _ _ _ _ _ _ _ _ _ _)));
    try (vm_compute; reflexivity); try (vm_compute; split; congruence);
    try (vm_compute; congruence); constructor.
Defined.

End RoundTrip.
